(** * sisl.utils.ranges: text ranges and their expansion

    A shallow embedding of [src/sisl/utils/ranges.py] ([strmap], [strseq],
    [erange], [lstranges], [fileindex]) together with the properties of the
    range parser that the specification states.

    Python values are dynamically typed; the functions of the module branch
    on [isinstance(_, tuple)] and [isinstance(_, list)], so the embedding
    keeps a small universe of Python values with tuples and lists as separate
    constructors.  Exceptions are explicit: every operation returns an
    [outcome], either a value or the exception raised. *)

From Stdlib Require Import ZArith List String Ascii Bool Lia PeanoNat.
Import ListNotations.

Open Scope string_scope.
Open Scope Z_scope.

(** ** Python values and exceptions *)

#[warning="-register-all"] Inductive value : Type :=
| VInt (z : Z)
| VStr (s : string)
| VNone
| VTuple (vs : list value)
| VList (vs : list value).

Inductive exn : Type :=
| ValueError (msg : string)
| IndexError
| TypeError.

Inductive outcome (A : Type) : Type :=
| Ok (a : A)
| Raise (e : exn).

Arguments Ok {A} a.
Arguments Raise {A} e.

Definition bind {A B : Type} (m : outcome A) (k : A -> outcome B) : outcome B :=
  match m with
  | Ok a => k a
  | Raise e => Raise e
  end.

Notation "x <- m ;; k" := (bind m (fun x => k))
  (at level 61, m at next level, right associativity).

(** [map(f, xs)] consumed left to right: the first exception raised wins. *)
Fixpoint mapM {A B : Type} (f : A -> outcome B) (xs : list A) : outcome (list B) :=
  match xs with
  | [] => Ok []
  | x :: xs' => y <- f x ;; ys <- mapM f xs' ;; Ok (y :: ys)
  end.

(** ** The string methods the module uses *)

Module Str.

(** [c in s] for a one-character [c]. *)
Fixpoint contains (c : ascii) (s : string) : bool :=
  match s with
  | EmptyString => false
  | String a s' => if Ascii.eqb a c then true else contains c s'
  end.

(** [s.count(c)] for a one-character [c]. *)
Fixpoint count (c : ascii) (s : string) : nat :=
  match s with
  | EmptyString => O
  | String a s' => if Ascii.eqb a c then S (count c s') else count c s'
  end.

(** [s.replace(c, '')] for a one-character [c]. *)
Fixpoint remove (c : ascii) (s : string) : string :=
  match s with
  | EmptyString => EmptyString
  | String a s' => if Ascii.eqb a c then remove c s' else String a (remove c s')
  end.

(** [s.split(c)] for a one-character separator: never the empty list. *)
Fixpoint split (c : ascii) (s : string) : list string :=
  match s with
  | EmptyString => [EmptyString]
  | String a s' =>
      if Ascii.eqb a c then EmptyString :: split c s'
      else match split c s' with
           | h :: t => String a h :: t
           | [] => [String a EmptyString]
           end
  end.

(** [sep.join(parts)]. *)
Fixpoint join (sep : string) (parts : list string) : string :=
  match parts with
  | [] => EmptyString
  | [p] => p
  | p :: ps => p ++ sep ++ join sep ps
  end.

(** [s[-1]]: the last character, when there is one. *)
Fixpoint last (s : string) : option ascii :=
  match s with
  | EmptyString => None
  | String a EmptyString => Some a
  | String _ s' => last s'
  end.

(** [s[:-1]]. *)
Fixpoint init (s : string) : string :=
  match s with
  | EmptyString => EmptyString
  | String _ EmptyString => EmptyString
  | String a s' => String a (init s')
  end.

(** [s[:n]]. *)
Fixpoint take (n : nat) (s : string) : string :=
  match n, s with
  | S n', String a s' => String a (take n' s')
  | _, _ => EmptyString
  end.

End Str.

(** ** The regular expression [_re_segment]

    The pattern only uses literal characters, the greedy [.+], capturing
    groups, concatenation and alternation.  [rmatch] is a backtracking
    matcher in continuation-passing style, with the priorities of Python's
    [re]: the first alternative that lets the rest of the pattern succeed
    wins, and [.+] gives characters back one at a time, longest first.
    [.] does not match a newline. *)

Module Re.

Inductive regex : Type :=
| Chr (c : ascii)
| AnyPlus
| Grp (n : nat) (r : regex)
| Cat (r1 r2 : regex)
| Alt (r1 r2 : regex).

(** The text captured by each group, [''] for a group that took no part. *)
Definition groups : Type := nat -> string.

Definition no_groups : groups := fun _ => EmptyString.

Definition set_group (n : nat) (s : string) (g : groups) : groups :=
  fun m => if Nat.eqb m n then s else g m.

Definition newline : ascii := "010"%char.

Fixpoint anyplus {A : Type} (s : string) (k : string -> option A) : option A :=
  match s with
  | EmptyString => None
  | String a s' =>
      if Ascii.eqb a newline then None
      else match anyplus s' k with
           | Some r => Some r
           | None => k s'
           end
  end.

Fixpoint rmatch (r : regex) (s : string) (g : groups)
         (k : string -> groups -> option groups) : option groups :=
  match r with
  | Chr c =>
      match s with
      | String a s' => if Ascii.eqb a c then k s' g else None
      | EmptyString => None
      end
  | AnyPlus => anyplus s (fun s' => k s' g)
  | Grp n r' =>
      rmatch r' s g
        (fun s' g' =>
           k s' (set_group n (Str.take (String.length s - String.length s') s) g'))
  | Cat r1 r2 => rmatch r1 s g (fun s' g' => rmatch r2 s' g' k)
  | Alt r1 r2 =>
      match rmatch r1 s g k with
      | Some g' => Some g'
      | None => rmatch r2 s g k
      end
  end.

(** The groups of the first match of [r] in [s], scanning start positions
    from the left: [r.findall(s)[0]], when [findall] finds anything. *)
Fixpoint first_match (r : regex) (s : string) : option groups :=
  match rmatch r s no_groups (fun _ g => Some g) with
  | Some g => Some g
  | None =>
      match s with
      | EmptyString => None
      | String _ s' => first_match r s'
      end
  end.

End Re.

Import Re.

(** [re.compile(r'\[(.+)\]\[(.+)\]|(.+)\[(.+)\]|(.+)')]; group [i] of the
    pattern is [m[i-1]] in the tuples [findall] returns. *)
Definition _re_segment : regex :=
  Alt (Cat (Chr "[") (Cat (Grp 0 AnyPlus) (Cat (Chr "]")
        (Cat (Chr "[") (Cat (Grp 1 AnyPlus) (Chr "]"))))))
   (Alt (Cat (Grp 2 AnyPlus) (Cat (Chr "[") (Cat (Grp 3 AnyPlus) (Chr "]"))))
        (Grp 4 AnyPlus)).

(** ** The builtin [int]

    [int] is Python's builtin, not code of the module.  The model follows
    the language reference for [int(str)] in base 10: surrounding whitespace
    is dropped, one sign may come first, then decimal digits, where single
    underscores may separate digits.  Anything else raises [ValueError]. *)

Module PyInt.

Definition is_space (a : ascii) : bool :=
  let n := nat_of_ascii a in
  ((9 <=? n) && (n <=? 13) || (28 <=? n) && (n <=? 32))%nat.

Definition digit_of (a : ascii) : option Z :=
  let n := nat_of_ascii a in
  if ((48 <=? n) && (n <=? 57))%nat then Some (Z.of_nat (n - 48)) else None.

Fixpoint lstrip (s : string) : string :=
  match s with
  | String a s' => if is_space a then lstrip s' else s
  | EmptyString => EmptyString
  end.

Fixpoint rstrip (s : string) : string :=
  match s with
  | EmptyString => EmptyString
  | String a s' =>
      match rstrip s' with
      | EmptyString => if is_space a then EmptyString else String a EmptyString
      | r => String a r
      end
  end.

Fixpoint digits (need_digit : bool) (acc : Z) (s : string) : option Z :=
  match s with
  | EmptyString => if need_digit then None else Some acc
  | String a s' =>
      match digit_of a with
      | Some d => digits false (10 * acc + d) s'
      | None =>
          if Ascii.eqb a "_" && negb need_digit then digits true acc s' else None
      end
  end.

Definition invalid_literal : exn :=
  ValueError "invalid literal for int() with base 10".

Definition int (s : string) : outcome value :=
  let body := rstrip (lstrip s) in
  let signed :=
    match body with
    | String "+" r => digits true 0 r
    | String "-" r => option_map Z.opp (digits true 0 r)
    | _ => digits true 0 body
    end in
  match signed with
  | Some z => Ok (VInt z)
  | None => Raise invalid_literal
  end.

End PyInt.

(** ** [strseq] *)

Definition strseq (cast : string -> outcome value) (s : string) : outcome value :=
  if Str.contains ":" s then
    vs <- mapM cast (Str.split ":" s) ;; Ok (VTuple vs)
  else if Str.contains "-" s then
    vs <- mapM cast (Str.split "-" s) ;; Ok (VTuple vs)
  else cast s.

(** ** [strmap] *)

(** [commas[i].count('[') == commas[i].count(']')] *)
Definition balanced (s : string) : bool :=
  Nat.eqb (Str.count "[" s) (Str.count "]" s).

(** [l[i] = v] and [del l[i]].  Both raise [IndexError] out of range in
    Python; the merge loop only uses them at [i] and [i+1] under its guard
    [i < len(commas) - 1], where both are in range. *)
Fixpoint set_item {A : Type} (i : nat) (v : A) (l : list A) : list A :=
  match l, i with
  | [], _ => []
  | _ :: t, O => v :: t
  | h :: t, S i' => h :: set_item i' v t
  end.

Fixpoint del_item {A : Type} (i : nat) (l : list A) : list A :=
  match l, i with
  | [], _ => []
  | _ :: t, O => t
  | h :: t, S i' => h :: del_item i' t
  end.

Definition item (i : nat) (commas : list string) : string :=
  nth i commas EmptyString.

(** The [while i < len(commas) - 1] loop, one iteration per unit of fuel;
    the state is the list [commas] and the index [i]. *)
Fixpoint merge_loop (fuel : nat) (commas : list string) (i : nat)
  : list string * nat :=
  match fuel with
  | O => (commas, i)
  | S fuel' =>
      if (i <? List.length commas - 1)%nat then
        if balanced (item i commas) then merge_loop fuel' commas (S i)
        else
          let merged := item i commas ++ "," ++ item (S i) commas in
          merge_loop fuel' (del_item (S i) (set_item i merged commas)) i
      else (commas, i)
  end.

(** Each iteration either advances [i] or shortens [commas], so
    [len(commas)] iterations are enough (see [merge_loop_exits]). *)
Definition merge_commas (commas : list string) : list string :=
  fst (merge_loop (List.length commas) commas 0).

Definition unbalanced : exn :=
  ValueError "Unbalanced string: not enough [ and ]".

(** Lines 39-55: the comma split, the merge loop and the check of the last
    entry.  The result is the list the [for seg in commas] loop runs over. *)
Definition tokens (s : string) : outcome (list string) :=
  let commas := merge_commas (Str.split "," (Str.remove " " s)) in
  let i := (List.length commas - 1)%nat in
  if balanced (item i commas) then Ok commas else Raise unbalanced.

(** [strmap] calls itself on the groups of the match, which are shorter than
    the segment; the embedding recurses on a fuel, [None] meaning that the
    fuel ran out. *)
Definition bindF {A B : Type} (m : option (outcome A))
           (k : A -> option (outcome B)) : option (outcome B) :=
  match m with
  | Some (Ok a) => k a
  | Some (Raise e) => Some (Raise e)
  | None => None
  end.

Notation "x <-? m ;; k" := (bindF m (fun x => k))
  (at level 61, m at next level, right associativity).

Definition nonempty (s : string) : bool := (0 <? String.length s)%nat.

Section Segments.

Variable func : string -> outcome value.
(** the recursive calls [strmap(func, _)] *)
Variable self : string -> option (outcome (list value)).

(** The body of [for seg in commas]: what the iteration appends to [l]. *)
Definition segment (seg : string) : option (outcome (list value)) :=
  match first_match _re_segment seg with
  | None => Some (Raise IndexError)
  | Some m =>
      if nonempty (m 0%nat) then
        rhs <-? self (m 1%nat) ;;
        els <-? self (m 0%nat) ;;
        Some (Ok (map (fun el => VTuple [el; VList rhs]) els))
      else if nonempty (m 2%nat) then
        a <-? Some (strseq func (m 2%nat)) ;;
        b <-? self (m 3%nat) ;;
        Some (Ok [VTuple [a; VList b]])
      else if nonempty (m 4%nat) then
        a <-? Some (strseq func (m 4%nat)) ;;
        Some (Ok [a])
      else Some (Ok [])
  end.

Fixpoint segments (commas : list string) (l : list value)
  : option (outcome (list value)) :=
  match commas with
  | [] => Some (Ok l)
  | seg :: rest => items <-? segment seg ;; segments rest (l ++ items)%list
  end.

End Segments.

Fixpoint strmap_fuel (fuel : nat) (func : string -> outcome value) (s : string)
  : option (outcome (list value)) :=
  match fuel with
  | O => None
  | S fuel' =>
      commas <-? Some (tokens s) ;;
      segments func (strmap_fuel fuel' func) commas []
  end.

Definition strmap (func : string -> outcome value) (s : string)
  : option (outcome (list value)) :=
  strmap_fuel (S (String.length s)) func s.

(** ** [erange] *)

(** The builtin [range(start, stop, step)] as the list of what it yields.
    The number of elements is the one CPython computes. *)
Definition range_len (start stop step : Z) : Z :=
  if 0 <? step then
    if start <? stop then (stop - start - 1) / step + 1 else 0
  else
    if stop <? start then (start - stop - 1) / (- step) + 1 else 0.

Definition range_list (start stop step : Z) : list Z :=
  map (fun k => start + Z.of_nat k * step)
      (seq 0 (Z.to_nat (range_len start stop step))).

Definition py_range (start stop step : Z) : outcome (list Z) :=
  if step =? 0 then Raise (ValueError "range() arg 3 must not be zero")
  else Ok (range_list start stop step).

(** [range] wants integers. *)
Definition as_int (v : value) : outcome Z :=
  match v with
  | VInt z => Ok z
  | _ => Raise TypeError
  end.

(** [v + 1]: defined on integers only, in this universe of values. *)
Definition plus_one (v : value) : outcome value :=
  match v with
  | VInt z => Ok (VInt (z + 1))
  | _ => Raise TypeError
  end.

Definition erange (args : list value) : outcome (list value) :=
  match args with
  | [a0; a1; a2] =>
      stop <- plus_one a2 ;;
      x <- as_int a0 ;; y <- as_int stop ;; st <- as_int a1 ;;
      r <- py_range x y st ;;
      Ok (map VInt r)
  | a0 :: a1 :: _ =>
      stop <- plus_one a1 ;;
      x <- as_int a0 ;; y <- as_int stop ;;
      r <- py_range x y 1 ;;
      Ok (map VInt r)
  | _ => Raise IndexError
  end.

(** ** [lstranges] *)

Section Expand.

(** The range constructor, [erange] by default, called on the unpacked
    arguments; its result is only ever consumed by [l.extend]. *)
Variable cast : list value -> outcome (list value).

Fixpoint lstranges (lst : value) : outcome value :=
  match lst with
  | VTuple vs =>
      if (List.length vs =? 3)%nat then
        r <- cast vs ;; Ok (VList r)
      else
        match vs with
        | [] => Raise IndexError
        | v0 :: rest =>
            head <- lstranges v0 ;;
            match rest with
            | [] => Raise IndexError
            | v1 :: _ =>
                bot <- lstranges v1 ;;
                match head with
                | VList hs => Ok (VList (map (fun el => VList [el; bot]) hs))
                | _ =>
                    match bot with
                    | VList _ => Ok (VList [VList [head; bot]])
                    | _ => r <- cast [head; bot] ;; Ok (VList r)
                    end
                end
            end
        end
  | VList vs =>
      (fix each (lts : list value) (l : list value) : outcome value :=
         match lts with
         | [] => Ok (VList l)
         | lt :: lts' =>
             ls <- lstranges lt ;;
             match ls with
             | VList xs => each lts' (l ++ xs)%list
             | _ => each lts' (l ++ [ls])%list
             end
         end) vs []
  | _ => Ok lst
  end.

(** The [for lt in lst] loop of the list case, from an accumulated [l]. *)
Fixpoint extend_each (lts : list value) (l : list value) : outcome value :=
  match lts with
  | [] => Ok (VList l)
  | lt :: lts' =>
      ls <- lstranges lt ;;
      match ls with
      | VList xs => extend_each lts' (l ++ xs)%list
      | _ => extend_each lts' (l ++ [ls])%list
      end
  end.

End Expand.

(** ** [fileindex] *)

(** [len(v)] and [v[0]] on the values that have them. *)
Definition py_len (v : value) : outcome nat :=
  match v with
  | VList vs | VTuple vs => Ok (List.length vs)
  | VStr s => Ok (String.length s)
  | _ => Raise TypeError
  end.

Definition py_first (v : value) : outcome value :=
  match v with
  | VList (x :: _) | VTuple (x :: _) => Ok x
  | VStr (String a _) => Ok (VStr (String a EmptyString))
  | VList [] | VTuple [] | VStr EmptyString => Raise IndexError
  | _ => Raise TypeError
  end.

(** Lines 177-179: [rng[0]] when [len(rng) == 1], else [rng]. *)
Definition collapse (fname : string) (rng : value) : outcome (string * value) :=
  n <- py_len rng ;;
  if (n =? 1)%nat then x <- py_first rng ;; Ok (fname, x)
  else Ok (fname, rng).

Definition fileindex (cast : string -> outcome value) (f : string)
  : option (outcome (string * value)) :=
  if negb (Str.contains "[" f) then Some (Ok (f, VNone))
  else
    match Str.split "[" f with
    | [] => Some (Raise IndexError)
    | fname :: rest =>
        let f1 := Str.join "[" rest in
        match Str.last f1 with
        | None => Some (Raise IndexError)
        | Some c =>
            let f2 := if Ascii.eqb c "]" then Str.init f1 else f1 in
            ranges <-? strmap cast f2 ;;
            rng <-? Some (lstranges erange (VList ranges)) ;;
            Some (collapse fname rng)
        end
    end.

(** [lstranges(strmap(cast, s))], the composition the specification calls
    [expand_range]. *)
Definition expand (cast : string -> outcome value) (s : string)
  : option (outcome value) :=
  l <-? strmap cast s ;; Some (lstranges erange (VList l)).

(** ** Vocabulary of the statements *)

(** A token has as many opening as closing brackets. *)
Definition is_balanced (t : string) : Prop :=
  Str.count "[" t = Str.count "]" t.

(** A decimal digit, and a literal made of decimal digits only (no sign, no
    space, no underscore): what a plain unsigned integer looks like. *)
Definition is_digit (a : ascii) : bool :=
  let n := nat_of_ascii a in ((48 <=? n) && (n <=? 57))%nat.

Fixpoint all_digits (s : string) : bool :=
  match s with
  | EmptyString => true
  | String a s' => is_digit a && all_digits s'
  end.

Definition unsigned_literal (t : string) : bool :=
  nonempty t && all_digits t.

(** The string is made of unsigned literals separated by commas. *)
Definition plain_integers (s : string) : bool :=
  forallb unsigned_literal (Str.split "," s).

(** A segment that is a bare value: no bracket, no separator of ranges. *)
Definition bare (t : string) : Prop :=
  t <> EmptyString /\
  Str.contains "[" t = false /\ Str.contains newline t = false /\
  Str.contains ":" t = false /\ Str.contains "-" t = false.

(** The size the merge loop preserves: every entry counted with the comma
    that follows it. *)
Fixpoint weight (commas : list string) : nat :=
  match commas with
  | [] => O
  | t :: rest => S (String.length t + weight rest)
  end.

(** The groups [strmap] recurses on are shorter than [n]. *)
Definition short_groups (m : groups) (n : nat) : Prop :=
  (String.length (m 0%nat) < n)%nat /\
  (String.length (m 1%nat) < n)%nat /\
  (String.length (m 3%nat) < n)%nat.

(** How often a character occurs in the entries of a list. *)
Fixpoint count_all (c : ascii) (commas : list string) : nat :=
  match commas with
  | [] => O
  | t :: rest => (Str.count c t + count_all c rest)%nat
  end.

(** A non-empty text without brackets, spaces or newlines; commas and the
    separators of ranges may occur in it. *)
Definition bracket_free (t : string) : Prop :=
  t <> EmptyString /\
  Str.contains "[" t = false /\ Str.contains "]" t = false /\
  Str.contains " " t = false /\ Str.contains newline t = false.


(** A value [lstranges] takes for a scalar: neither a tuple nor a list. *)
Definition is_leaf (v : value) : bool :=
  match v with
  | VTuple _ | VList _ => false
  | _ => true
  end.

(** * Properties *)

(** ** Concrete runs *)

(** C1: [lstranges(strmap(int, "1-3[2-3]"))] is
    [[[1, [2,3]], [2, [2,3]], [3, [2,3]]]]: the outer range 1-3 is expanded
    into 1, 2, 3 and each of them is paired with the same inner list [2,3]. *)
Theorem expand_outer_range_with_subrange :
  expand PyInt.int "1-3[2-3]" =
  Some (Ok (VList [VList [VInt 1; VList [VInt 2; VInt 3]];
                   VList [VInt 2; VList [VInt 2; VInt 3]];
                   VList [VInt 3; VList [VInt 2; VInt 3]]])).
Proof. vm_compute. reflexivity. Qed.

(** C3, as stated, fails: the expansion of ["1"] is not the bare scalar. *)
Lemma expand_single_not_scalar :
  expand PyInt.int "1" <> Some (Ok (VInt 1)).
Proof. vm_compute. discriminate. Qed.

(** C3 (amended): [lstranges(strmap(int, "1"))] is the one-element list
    [[1]]; [lstranges] returns a list whenever it is given one. *)
Theorem expand_single_is_singleton_list :
  expand PyInt.int "1" = Some (Ok (VList [VInt 1])).
Proof. vm_compute. reflexivity. Qed.

(** C4: for every cast function, [strmap(cast, "1-10[2-3")] raises the
    [ValueError] "Unbalanced string: not enough [ and ]" and returns
    nothing. *)
Theorem strmap_missing_close_bracket_raises :
  forall func : string -> outcome value,
    strmap func "1-10[2-3" =
    Some (Raise (ValueError "Unbalanced string: not enough [ and ]")).
Proof. intro func. reflexivity. Qed.

(** ** Facts about the string methods *)

Module StrFacts.
Import Str.

Lemma split_nonempty c s : split c s <> [].
Proof.
  destruct s as [|a s]; simpl; [discriminate|].
  destruct (Ascii.eqb a c); [discriminate|].
  destruct (split c s); discriminate.
Qed.

Lemma split_length c s : List.length (split c s) = S (count c s).
Proof.
  induction s as [|a s IH]; simpl; [reflexivity|].
  destruct (Ascii.eqb a c); simpl; [now rewrite IH|].
  destruct (split c s) as [|h t] eqn:E; [now apply split_nonempty in E|].
  simpl in *. exact IH.
Qed.

Lemma split_no_sep c s : contains c s = false -> split c s = [s].
Proof.
  induction s as [|a s IH]; simpl; [reflexivity|].
  destruct (Ascii.eqb a c); [discriminate|].
  intro H. now rewrite (IH H).
Qed.

Lemma split_app_sep c a b :
  contains c a = false -> split c (a ++ String c b) = a :: split c b.
Proof.
  induction a as [|x a IH]; simpl.
  - intros _. now rewrite Ascii.eqb_refl.
  - destruct (Ascii.eqb x c); [discriminate|].
    intro H. now rewrite (IH H).
Qed.

Lemma contains_app c a b :
  contains c (a ++ b) = contains c a || contains c b.
Proof.
  induction a as [|x a IH]; simpl; [reflexivity|].
  now destruct (Ascii.eqb x c).
Qed.

Lemma count_app c a b : count c (a ++ b) = (count c a + count c b)%nat.
Proof.
  induction a as [|x a IH]; simpl; [reflexivity|].
  destruct (Ascii.eqb x c); simpl; now rewrite IH.
Qed.

Lemma count_no_sep c s : contains c s = false -> count c s = O.
Proof.
  induction s as [|a s IH]; simpl; [reflexivity|].
  now destruct (Ascii.eqb a c).
Qed.

Lemma join_split sep s : join (String sep EmptyString) (split sep s) = s.
Proof.
  induction s as [|a s IH]; simpl; [reflexivity|].
  destruct (Ascii.eqb a sep) eqn:E.
  - apply Ascii.eqb_eq in E. subst a.
    destruct (split sep s) as [|h t] eqn:Es; [now apply split_nonempty in Es|].
    change (join (String sep EmptyString) (EmptyString :: h :: t))
      with (String sep (join (String sep EmptyString) (h :: t))).
    now rewrite IH.
  - destruct (split sep s) as [|h t] eqn:Es; [now apply split_nonempty in Es|].
    destruct t as [|h' t]; simpl in *; now rewrite <- IH.
Qed.

Lemma last_app_char s c : last (s ++ String c EmptyString) = Some c.
Proof.
  induction s as [|a s IH]; simpl; [reflexivity|].
  rewrite IH. destruct s; reflexivity.
Qed.

Lemma init_app_char s c : init (s ++ String c EmptyString) = s.
Proof.
  induction s as [|a s IH]; simpl; [reflexivity|].
  rewrite IH. destruct s; reflexivity.
Qed.

Lemma last_none s : last s = None -> s = EmptyString.
Proof.
  induction s as [|a s IH]; [reflexivity|].
  simpl. destruct s as [|b s]; [discriminate|].
  intro H. now apply IH in H.
Qed.

Lemma append_assoc (a b c : string) : (a ++ b) ++ c = a ++ (b ++ c).
Proof. induction a as [|x a IH]; simpl; [reflexivity | now rewrite IH]. Qed.

End StrFacts.

(** ** The fuel of [strmap]

    The recursive calls of [strmap] are on groups of the match that the
    pattern takes from inside a pair of brackets, so on strictly shorter
    strings: the fuel [strmap] starts from never runs out, and more fuel
    never changes a result. *)

Section Fuel.
Import Str StrFacts.

Lemma length_append (a b : string) :
  String.length (a ++ b) = (String.length a + String.length b)%nat.
Proof. induction a as [|x a IH]; simpl; [reflexivity | now rewrite IH]. Qed.

Lemma length_remove c s : (String.length (remove c s) <= String.length s)%nat.
Proof.
  induction s as [|a s IH]; simpl; [lia|].
  destruct (Ascii.eqb a c); simpl; lia.
Qed.

Lemma length_take n s : (String.length (take n s) <= String.length s)%nat.
Proof.
  revert s. induction n as [|n IH]; intros [|a s]; simpl; try lia.
  specialize (IH s). lia.
Qed.

Lemma weight_split c s : weight (split c s) = S (String.length s).
Proof.
  induction s as [|a s IH]; [reflexivity|]. simpl.
  destruct (Ascii.eqb a c); simpl; [now rewrite IH|].
  destruct (split c s) as [|h t] eqn:E; [now apply split_nonempty in E|].
  simpl in *. lia.
Qed.

Lemma weight_merge commas i :
  (S i < List.length commas)%nat ->
  weight (del_item (S i)
            (set_item i (item i commas ++ "," ++ item (S i) commas) commas))
  = weight commas.
Proof.
  revert i. induction commas as [|h t IH]; intros i Hi; simpl in Hi; [lia|].
  destruct i as [|i].
  - destruct t as [|h' t]; simpl in Hi; [lia|].
    cbn [set_item del_item item nth weight].
    rewrite length_append. simpl. lia.
  - change (S (String.length h +
               weight (del_item (S i)
                         (set_item i (item i t ++ "," ++ item (S i) t) t)))
            = S (String.length h + weight t)).
    rewrite IH by lia. reflexivity.
Qed.

Lemma merge_loop_weight fuel :
  forall commas i, weight (fst (merge_loop fuel commas i)) = weight commas.
Proof.
  induction fuel as [|fuel IH]; intros commas i; [reflexivity|].
  cbn [merge_loop].
  destruct (Nat.ltb_spec i (List.length commas - 1)) as [Hlt|Hge]; [|reflexivity].
  destruct (balanced (item i commas)); [apply IH|].
  rewrite IH. apply weight_merge. lia.
Qed.

Lemma weight_in t commas :
  In t commas -> (String.length t < weight commas)%nat.
Proof.
  induction commas as [|h rest IH]; simpl; [tauto|].
  intros [->|H]; [lia|]. specialize (IH H). lia.
Qed.

(** No entry handed to the segment loop is longer than the input. *)
Lemma tokens_length s commas t :
  tokens s = Ok commas -> In t commas ->
  (String.length t <= String.length s)%nat.
Proof.
  unfold tokens, merge_commas.
  destruct (balanced _); [|discriminate].
  intro H. injection H as <-. intro Hin.
  apply weight_in in Hin.
  rewrite merge_loop_weight, weight_split in Hin.
  pose proof (length_remove " " s). lia.
Qed.

End Fuel.

Section GroupLengths.
Import Str StrFacts.

(** When [.+] lets the rest succeed, the rest ran on a strictly shorter
    text. *)
Lemma anyplus_some {A : Type} (k : string -> option A) (r : A) s :
  anyplus s k = Some r ->
  exists s', k s' = Some r /\ (String.length s' < String.length s)%nat.
Proof.
  induction s as [|a s IH]; simpl; [discriminate|].
  destruct (Ascii.eqb a newline); [discriminate|].
  destruct (anyplus s k) as [r'|] eqn:E.
  - intro H. injection H as ->.
    destruct (IH eq_refl) as (s' & Hk & Hlen). exists s'. split; [exact Hk | lia].
  - intro H. exists s. split; [exact H | lia].
Qed.

Ltac next_char H :=
  match type of H with
  | match ?s with EmptyString => None | String _ _ => _ end = Some _ =>
      destruct s as [|? ?]; [discriminate H|]
  end;
  match type of H with
  | (if ?b then _ else None) = Some _ => destruct b; [|discriminate H]
  end.

(** The groups of the first two alternatives lie inside brackets. *)
Lemma rmatch_segment_groups s m :
  rmatch _re_segment s no_groups (fun _ g => Some g) = Some m ->
  short_groups m (String.length s).
Proof.
  unfold _re_segment. cbn [rmatch].
  match goal with
  | |- match ?first with Some _ => _ | None => _ end = _ -> _ =>
      destruct first as [g1|] eqn:E1
  end.
  - intro H. injection H as ->.
    next_char E1.
    apply anyplus_some in E1 as (s1 & E1 & Hlen1).
    next_char E1. next_char E1.
    apply anyplus_some in E1 as (s2 & E1 & Hlen2).
    next_char E1. injection E1 as <-.
    unfold short_groups, set_group. cbn [Nat.eqb String.length] in *.
    repeat split.
    + eapply Nat.le_lt_trans; [apply length_take | lia].
    + eapply Nat.le_lt_trans; [apply length_take | lia].
    + unfold no_groups. simpl. lia.
  - match goal with
    | |- match ?second with Some _ => _ | None => _ end = _ -> _ =>
        destruct second as [g2|] eqn:E2
    end.
    + intro H. injection H as ->.
      apply anyplus_some in E2 as (s1 & E2 & Hlen1).
      next_char E2.
      apply anyplus_some in E2 as (s2 & E2 & Hlen2).
      next_char E2. injection E2 as <-.
      unfold short_groups, set_group, no_groups. cbn [Nat.eqb String.length] in *.
      repeat split; try lia.
      eapply Nat.le_lt_trans; [apply length_take | lia].
    + intro H. apply anyplus_some in H as (s1 & H & Hlen1).
      injection H as <-.
      unfold short_groups, set_group, no_groups. cbn [Nat.eqb String.length].
      repeat split; lia.
Qed.

Lemma first_match_groups s m :
  first_match _re_segment s = Some m ->
  short_groups m (String.length s).
Proof.
  induction s as [|a s IH]; cbn [first_match].
  - destruct (rmatch _ _ _ _) eqn:E; [|discriminate].
    intro H. injection H as ->. now apply rmatch_segment_groups in E.
  - destruct (rmatch _ _ _ _) eqn:E.
    + intro H. injection H as ->. now apply rmatch_segment_groups in E.
    + intro H. destruct (IH H) as (H0 & H1 & H3).
      unfold short_groups. simpl. repeat split; lia.
Qed.

End GroupLengths.

Section FuelEnough.

Variable func : string -> outcome value.

Lemma segment_total self seg :
  (forall t, (String.length t < String.length seg)%nat -> self t <> None) ->
  segment func self seg <> None.
Proof.
  intro Hself. unfold segment.
  destruct (first_match _re_segment seg) as [m|] eqn:Hm; [|discriminate].
  destruct (first_match_groups seg m Hm) as (H0 & H1 & H3).
  destruct (nonempty (m 0%nat)).
  - destruct (self (m 1%nat)) as [[rhs|e]|] eqn:E1;
      [| discriminate | now apply Hself in E1].
    cbn [bindF].
    destruct (self (m 0%nat)) as [[els|e]|] eqn:E0;
      [discriminate | discriminate | now apply Hself in E0].
  - destruct (nonempty (m 2%nat)).
    + destruct (strseq func (m 2%nat)) as [a|e]; cbn [bindF]; [|discriminate].
      destruct (self (m 3%nat)) as [[b|e]|] eqn:E3;
        [discriminate | discriminate | now apply Hself in E3].
    + destruct (nonempty (m 4%nat)); [|discriminate].
      destruct (strseq func (m 4%nat)); discriminate.
Qed.

Lemma segments_total self commas :
  (forall seg t, In seg commas ->
                 (String.length t < String.length seg)%nat -> self t <> None) ->
  forall l, segments func self commas l <> None.
Proof.
  induction commas as [|seg rest IH]; intros Hself l; [discriminate|].
  cbn [segments].
  destruct (segment func self seg) as [[items|e]|] eqn:E; cbn [bindF].
  - apply IH. intros seg' t Hin. apply Hself. now right.
  - discriminate.
  - exfalso. revert E. apply segment_total.
    intros t. apply Hself. now left.
Qed.

(** With more fuel than the input has characters, [strmap] returns. *)
Lemma strmap_fuel_total fuel :
  forall s, (String.length s < fuel)%nat -> strmap_fuel fuel func s <> None.
Proof.
  induction fuel as [|fuel IH]; intros s Hlen; [lia|].
  cbn [strmap_fuel].
  destruct (tokens s) as [commas|e] eqn:Ht; cbn [bindF]; [|discriminate].
  apply segments_total. intros seg t Hin Hlt.
  apply IH. pose proof (tokens_length s commas seg Ht Hin). lia.
Qed.

Lemma segment_mono (self self' : string -> option (outcome (list value))) seg r :
  (forall t r', self t = Some r' -> self' t = Some r') ->
  segment func self seg = Some r -> segment func self' seg = Some r.
Proof.
  intro Hself. unfold segment.
  destruct (first_match _re_segment seg) as [m|]; [|auto].
  destruct (nonempty (m 0%nat)).
  - destruct (self (m 1%nat)) as [[rhs|e]|] eqn:E1; cbn [bindF];
      [| rewrite (Hself _ _ E1); auto | discriminate].
    rewrite (Hself _ _ E1). cbn [bindF].
    destruct (self (m 0%nat)) as [[els|e]|] eqn:E0; cbn [bindF];
      [| rewrite (Hself _ _ E0); auto | discriminate].
    rewrite (Hself _ _ E0). auto.
  - destruct (nonempty (m 2%nat)); [|auto].
    destruct (strseq func (m 2%nat)) as [a|e]; cbn [bindF]; [|auto].
    destruct (self (m 3%nat)) as [[b|e]|] eqn:E3; cbn [bindF];
      [| rewrite (Hself _ _ E3); auto | discriminate].
    rewrite (Hself _ _ E3). auto.
Qed.

Lemma segments_mono (self self' : string -> option (outcome (list value))) commas :
  (forall t r', self t = Some r' -> self' t = Some r') ->
  forall l r,
    segments func self commas l = Some r -> segments func self' commas l = Some r.
Proof.
  intro Hself. induction commas as [|seg rest IH]; intros l r; [auto|].
  cbn [segments].
  destruct (segment func self seg) as [[items|e]|] eqn:E; cbn [bindF];
    [| | discriminate];
    rewrite (segment_mono self self' seg _ Hself E); cbn [bindF]; auto.
Qed.

(** More fuel never changes what [strmap] returns. *)
Lemma strmap_fuel_mono fuel :
  forall s r,
    strmap_fuel fuel func s = Some r -> strmap_fuel (S fuel) func s = Some r.
Proof.
  induction fuel as [|fuel IH]; intros s r; [discriminate|].
  intro H. cbn [strmap_fuel] in *.
  destruct (tokens s) as [commas|e]; cbn [bindF] in *; [|exact H].
  revert H. apply segments_mono. exact IH.
Qed.

Lemma strmap_total s : strmap func s <> None.
Proof. apply strmap_fuel_total. lia. Qed.

Lemma strmap_fuel_enough fuel s :
  (String.length s < fuel)%nat -> strmap_fuel fuel func s = strmap func s.
Proof.
  intro Hlen. destruct (strmap func s) as [r|] eqn:E;
    [|now apply strmap_total in E].
  unfold strmap in E.
  replace fuel with ((fuel - S (String.length s)) + S (String.length s))%nat by lia.
  induction (fuel - S (String.length s))%nat as [|d IH]; [exact E|].
  now apply strmap_fuel_mono.
Qed.

End FuelEnough.

(** ** [strseq] *)

(** C6, as stated, fails: a plain string with two span separators and no
    step separator is split into three parts, and the result is a 3-tuple. *)
Lemma strseq_two_spans_is_triple :
  Str.contains "-" "1-2-3" = true /\
  Str.contains ":" "1-2-3" = false /\
  strseq PyInt.int "1-2-3" = Ok (VTuple [VInt 1; VInt 2; VInt 3]) /\
  ~ (exists a b, strseq PyInt.int "1-2-3" = Ok (VTuple [a; b])).
Proof.
  repeat split.
  intros (a & b & H). vm_compute in H. discriminate.
Qed.

(** C6 (amended): for a plain string with a span separator and no step
    separator, [strseq] splits at every ['-'] and returns the tuple of the
    casts of all the parts, one more part than there are separators; with a
    single separator, [start-end], that is the 2-tuple
    [(cast(start), cast(end))]. *)
Theorem strseq_span cast s :
  Str.contains ":" s = false ->
  Str.contains "-" s = true ->
  strseq cast s = (vs <- mapM cast (Str.split "-" s) ;; Ok (VTuple vs)) /\
  List.length (Str.split "-" s) = S (Str.count "-" s) /\
  (forall start stop,
      s = start ++ "-" ++ stop ->
      Str.contains "-" start = false ->
      Str.contains "-" stop = false ->
      strseq cast s = (a <- cast start ;; b <- cast stop ;; Ok (VTuple [a; b]))).
Proof.
  intros Hstep Hspan.
  assert (E : strseq cast s = (vs <- mapM cast (Str.split "-" s) ;; Ok (VTuple vs))).
  { unfold strseq. now rewrite Hstep, Hspan. }
  split; [exact E|]. split; [apply StrFacts.split_length|].
  intros start stop -> Hs He. rewrite E.
  change (start ++ "-" ++ stop) with (start ++ String "-" stop).
  rewrite (StrFacts.split_app_sep _ _ _ Hs), (StrFacts.split_no_sep _ _ He).
  simpl. destruct (cast start); simpl; [|reflexivity].
  destruct (cast stop); reflexivity.
Qed.

Lemma strseq_span_witness :
  strseq PyInt.int "3-6" = Ok (VTuple [VInt 3; VInt 6]).
Proof.
  destruct (strseq_span PyInt.int "3-6" eq_refl eq_refl) as (_ & _ & H).
  rewrite (H "3" "6" eq_refl eq_refl eq_refl).
  reflexivity.
Defined.

(** ** [lstranges] on pairs *)

(** C2, as stated, fails: the tree [strmap(int, "1-3[2-3]")] holds the pair
    [((1, 3), [(2, 3)])]; its first component expands to the list [1, 2, 3],
    and the pairs emitted carry [[2, 3]], the expansion of the second
    component, not the raw sub-tree [[(2, 3)]]. *)
Lemma lstranges_pair_second_is_expanded :
  let first := VTuple [VInt 1; VInt 3] in
  let second := VList [VTuple [VInt 2; VInt 3]] in
  strmap PyInt.int "1-3[2-3]" = Some (Ok [VTuple [first; second]]) /\
  lstranges erange first = Ok (VList [VInt 1; VInt 2; VInt 3]) /\
  lstranges erange (VTuple [first; second]) <>
  Ok (VList (map (fun el => VList [el; second]) [VInt 1; VInt 2; VInt 3])).
Proof.
  repeat split. vm_compute. discriminate.
Qed.

(** C2 (amended): for a 2-element pair whose first component expands to a
    list, [lstranges] also expands the second component, and every emitted
    pair [[element, bot]] carries that expansion [bot]; an exception raised
    by the expansion of the second component is raised by the pair. *)
Theorem lstranges_pair_head_list cast first second hs :
  lstranges cast first = Ok (VList hs) ->
  lstranges cast (VTuple [first; second]) =
  (bot <- lstranges cast second ;;
   Ok (VList (map (fun el => VList [el; bot]) hs))).
Proof.
  intro H. simpl. rewrite H. reflexivity.
Qed.

Lemma lstranges_pair_head_list_witness :
  lstranges erange (VTuple [VTuple [VInt 1; VInt 3]; VList [VTuple [VInt 2; VInt 3]]]) =
  Ok (VList [VList [VInt 1; VList [VInt 2; VInt 3]];
             VList [VInt 2; VList [VInt 2; VInt 3]];
             VList [VInt 3; VList [VInt 2; VInt 3]]]).
Proof.
  rewrite (lstranges_pair_head_list erange (VTuple [VInt 1; VInt 3])
             (VList [VTuple [VInt 2; VInt 3]]) [VInt 1; VInt 2; VInt 3] eq_refl).
  reflexivity.
Defined.

(** ** The merge loop of [strmap] *)

Lemma balanced_spec t : balanced t = true <-> is_balanced t.
Proof. unfold balanced, is_balanced. apply Nat.eqb_eq. Qed.

Section MergeLoop.

Lemma firstn_snoc_item (l : list string) i :
  (i < List.length l)%nat ->
  firstn (S i) l = (firstn i l ++ [item i l])%list.
Proof.
  revert i. induction l as [|h t IH]; intros i Hi; simpl in Hi; [lia|].
  destruct i as [|i]; [reflexivity|].
  change (firstn (S (S i)) (h :: t)) with (h :: firstn (S i) t).
  rewrite IH by lia. reflexivity.
Qed.

Lemma merge_entry_length (l : list string) i v :
  (S i < List.length l)%nat ->
  List.length (del_item (S i) (set_item i v l)) = (List.length l - 1)%nat.
Proof.
  revert i. induction l as [|h t IH]; intros i Hi; simpl in Hi; [lia|].
  destruct i as [|i].
  - destruct t; simpl in *; lia.
  - change (S (List.length (del_item (S i) (set_item i v t)))
            = (S (List.length t) - 1)%nat).
    rewrite IH by lia. destruct t; simpl in *; lia.
Qed.

Lemma merge_entry_firstn (l : list string) i v :
  firstn i (del_item (S i) (set_item i v l)) = firstn i l.
Proof.
  revert i. induction l as [|h t IH]; intros i; [now destruct i|].
  destruct i as [|i]; [reflexivity|].
  simpl. now rewrite IH.
Qed.

(** The loop invariant: the entries before [i] are balanced.  With enough
    fuel the loop leaves through its guard, at the last index. *)
Lemma merge_loop_invariant fuel :
  forall commas i,
    (i < List.length commas)%nat ->
    (List.length commas - 1 - i <= fuel)%nat ->
    Forall is_balanced (firstn i commas) ->
    let out := merge_loop fuel commas i in
    snd out = (List.length (fst out) - 1)%nat /\
    fst out <> [] /\
    Forall is_balanced (firstn (snd out) (fst out)).
Proof.
  induction fuel as [|fuel IH]; intros commas i Hi Hfuel Hinv;
    cbn [merge_loop].
  - cbn [fst snd]. repeat split; [lia | now destruct commas | exact Hinv].
  - destruct (Nat.ltb_spec i (List.length commas - 1)) as [Hlt|Hge].
    + destruct (balanced (item i commas)) eqn:Hb.
      * apply IH; [lia | lia |].
        rewrite firstn_snoc_item by lia.
        apply Forall_app. split; [exact Hinv|].
        constructor; [now apply balanced_spec | constructor].
      * apply IH; rewrite ?merge_entry_length by lia; [lia | lia |].
        now rewrite merge_entry_firstn.
    + cbn [fst snd]. repeat split; [lia | now destruct commas | exact Hinv].
Qed.

Lemma firstn_last_item (l : list string) :
  l <> [] ->
  l = (firstn (List.length l - 1) l ++ [item (List.length l - 1) l])%list.
Proof.
  intro Hne.
  assert (Hlen : (0 < List.length l)%nat) by (destruct l; simpl; [congruence | lia]).
  rewrite <- firstn_snoc_item by lia.
  replace (S (List.length l - 1)) with (List.length l) by lia.
  now rewrite firstn_all.
Qed.

(** The loop establishes the balance of every entry before the last. *)
Lemma merge_commas_prefix_balanced commas :
  commas <> [] ->
  merge_commas commas <> [] /\
  Forall is_balanced
    (firstn (List.length (merge_commas commas) - 1) (merge_commas commas)).
Proof.
  intro Hne. unfold merge_commas.
  assert (Hlen : (0 < List.length commas)%nat)
    by (destruct commas; simpl; [congruence | lia]).
  destruct (merge_loop_invariant (List.length commas) commas 0 Hlen
              ltac:(lia) (Forall_nil _)) as (Hi & Hn & Hf).
  split; [exact Hn|]. now rewrite <- Hi.
Qed.

(** When the check of the last entry passes, every entry is balanced. *)
Lemma tokens_balanced s commas :
  tokens s = Ok commas -> Forall is_balanced commas.
Proof.
  unfold tokens.
  set (l := merge_commas (Str.split "," (Str.remove " " s))).
  destruct (balanced (item (List.length l - 1) l)) eqn:Hb; [|discriminate].
  intro H. injection H as <-.
  destruct (merge_commas_prefix_balanced (Str.split "," (Str.remove " " s))
              (StrFacts.split_nonempty _ _)) as (Hn & Hf).
  fold l in Hn, Hf.
  rewrite (firstn_last_item l Hn).
  apply Forall_app. split; [exact Hf|].
  constructor; [now apply balanced_spec | constructor].
Qed.

End MergeLoop.

(** C7: whenever a call of [strmap] does not raise, the comma-merged entries
    its [for seg in commas] loop classifies all have as many ['['] as [']'];
    the merge loop gives this for the entries before the last, and the check
    of the last entry for the last one.  The statement is about every call,
    the recursive ones included, since it holds for every fuel. *)
Theorem strmap_tokens_balanced fuel func s r :
  strmap_fuel fuel func s = Some (Ok r) ->
  exists fuel' commas,
    fuel = S fuel' /\
    tokens s = Ok commas /\
    segments func (strmap_fuel fuel' func) commas [] = Some (Ok r) /\
    Forall is_balanced (firstn (List.length commas - 1) commas) /\
    balanced (item (List.length commas - 1) commas) = true /\
    Forall (fun t => Str.count "[" t = Str.count "]" t) commas.
Proof.
  destruct fuel as [|fuel']; simpl; [discriminate|].
  destruct (tokens s) as [commas|e] eqn:Ht; simpl; [|discriminate].
  intro Hseg. exists fuel', commas.
  repeat split; try assumption.
  - unfold tokens in Ht.
    destruct (balanced _) in Ht; [|discriminate].
    injection Ht as <-.
    apply merge_commas_prefix_balanced, StrFacts.split_nonempty.
  - unfold tokens in Ht.
    destruct (balanced _) eqn:Hb in Ht; [|discriminate].
    injection Ht as <-. exact Hb.
  - exact (tokens_balanced s commas Ht).
Qed.

Lemma strmap_tokens_balanced_witness :
  exists fuel' commas,
    9%nat = S fuel' /\
    tokens "1-3[2,3],7" = Ok commas /\
    segments PyInt.int (strmap_fuel fuel' PyInt.int) commas [] =
      Some (Ok [VTuple [VTuple [VInt 1; VInt 3]; VList [VInt 2; VInt 3]]; VInt 7]) /\
    Forall is_balanced (firstn (List.length commas - 1) commas) /\
    balanced (item (List.length commas - 1) commas) = true /\
    Forall (fun t => Str.count "[" t = Str.count "]" t) commas.
Proof.
  apply (strmap_tokens_balanced 9 PyInt.int "1-3[2,3],7"
           [VTuple [VTuple [VInt 1; VInt 3]; VList [VInt 2; VInt 3]]; VInt 7]).
  vm_compute. reflexivity.
Defined.

(** ** [erange] *)

Section Ranges.

(** What [range] yields for a positive step: the values [start + k*step]
    below [stop]. *)
Lemma in_range_list_pos start stop step z :
  0 < step ->
  In z (range_list start stop step) <->
  start <= z < stop /\ (step | z - start).
Proof.
  intro Hstep. unfold range_list, range_len.
  rewrite in_map_iff.
  destruct (Z.ltb_spec 0 step) as [_|]; [|lia].
  split.
  - intros (k & <- & Hk). apply in_seq in Hk.
    destruct (Z.ltb_spec start stop) as [Hlt|Hge]; [|simpl in Hk; lia].
    assert (Hq : 0 <= (stop - start - 1) / step)
      by (apply Z.div_pos; lia).
    assert (Hk' : Z.of_nat k <= (stop - start - 1) / step) by lia.
    assert (Hm := Z.mul_div_le (stop - start - 1) step Hstep).
    split; [nia|].
    exists (Z.of_nat k). ring.
  - intros ((Hlo & Hhi) & (m & Hm)).
    destruct (Z.ltb_spec start stop) as [Hlt|Hge]; [|lia].
    assert (Hm0 : 0 <= m) by nia.
    assert (Hmq : m <= (stop - start - 1) / step)
      by (apply Z.div_le_lower_bound; nia).
    exists (Z.to_nat m). split; [rewrite Z2Nat.id by lia; lia|].
    apply in_seq. lia.
Qed.

Lemma in_map_VInt z l : In (VInt z) (map VInt l) <-> In z l.
Proof.
  rewrite in_map_iff. split.
  - intros (y & Hy & Hin). now injection Hy as ->.
  - intro H. now exists z.
Qed.

Lemma erange_pair a b :
  erange [VInt a; VInt b] = Ok (map VInt (range_list a (b + 1) 1)).
Proof. reflexivity. Qed.

Lemma erange_triple a step b :
  step <> 0 ->
  erange [VInt a; VInt step; VInt b] =
  Ok (map VInt (range_list a (b + 1) step)).
Proof.
  intro H. unfold erange, plus_one, as_int, py_range, bind.
  destruct (Z.eqb_spec step 0); [contradiction | reflexivity].
Qed.

End Ranges.

(** C9, as stated, fails: with a step that does not divide the distance
    between the endpoints the end is not yielded, and a 2-tuple whose start
    is above its end yields nothing. *)
Lemma erange_end_not_always_included :
  erange [VInt 1; VInt 2; VInt 6] = Ok [VInt 1; VInt 3; VInt 5] /\
  (forall l, erange [VInt 1; VInt 2; VInt 6] = Ok l -> ~ In (VInt 6) l) /\
  erange [VInt 5; VInt 3] = Ok [].
Proof.
  split; [reflexivity|]. split; [|reflexivity].
  intros l H. vm_compute in H. injection H as <-.
  simpl. intros [H|[H|[H|[]]]]; discriminate.
Qed.

(** C9 (amended): for every 2-tuple [(a, b)], [erange(a, b)] yields exactly
    the integers from [a] through [b], so both endpoints whenever [a <= b];
    for every 3-tuple [(a, step, b)] with a positive step and [a <= b],
    [erange(a, step, b)] yields exactly the values [a, a+step, a+2*step, ...]
    that do not exceed [b]: [a] is always among them, and [b] is exactly when
    [step] divides [b - a]. *)
Theorem erange_inclusive :
  (forall a b,
      exists l,
        erange [VInt a; VInt b] = Ok (map VInt l) /\
        (forall z, In z l <-> a <= z <= b)) /\
  (forall a step b,
      0 < step -> a <= b ->
      exists l,
        erange [VInt a; VInt step; VInt b] = Ok (map VInt l) /\
        (forall z, In z l <-> a <= z <= b /\ (step | z - a)) /\
        In a l /\
        (In b l <-> (step | b - a))).
Proof.
  split.
  - intros a b. exists (range_list a (b + 1) 1).
    split; [apply erange_pair|].
    intro z. rewrite in_range_list_pos by lia.
    split; [lia|]. intro H. split; [lia|]. exists (z - a). ring.
  - intros a step b Hstep Hab. exists (range_list a (b + 1) step).
    split; [apply erange_triple; lia|].
    assert (Hin : forall z, In z (range_list a (b + 1) step) <->
                            a <= z <= b /\ (step | z - a)).
    { intro z. rewrite in_range_list_pos by lia.
      split; intros (H1 & H2); (split; [lia | exact H2]). }
    split; [exact Hin|]. split.
    + apply Hin. split; [lia|]. exists 0. ring.
    + rewrite Hin. split; [tauto|]. intro H. split; [lia | exact H].
Qed.

Lemma erange_inclusive_witness :
  exists l,
    erange [VInt 1; VInt 2; VInt 7] = Ok (map VInt l) /\
    (forall z, In z l <-> 1 <= z <= 7 /\ (2 | z - 1)) /\
    In 1 l /\
    (In 7 l <-> (2 | 7 - 1)).
Proof.
  apply (proj2 erange_inclusive 1 2 7); lia.
Defined.

(** ** [fileindex] *)

Section FileIndex.
Import Str StrFacts.

Lemma lstranges_list cast vs :
  lstranges cast (VList vs) = extend_each cast vs [].
Proof. reflexivity. Qed.

Lemma extend_each_is_list cast lts :
  forall l v, extend_each cast lts l = Ok v -> exists l', v = VList l'.
Proof.
  induction lts as [|lt lts IH]; intros l v; simpl.
  - intro H. injection H as <-. now exists l.
  - destruct (lstranges cast lt) as [ls|e]; simpl; [|discriminate].
    destruct ls; apply IH.
Qed.

(** The expansion of a [strmap] result is a list, never a bare scalar. *)
Lemma expand_is_list cast s v :
  expand cast s = Some (Ok v) -> exists l, v = VList l.
Proof.
  unfold expand. destruct (strmap cast s) as [[l|e]|]; cbn [bindF];
    try discriminate.
  intro H.
  apply (extend_each_is_list erange l []).
  rewrite <- lstranges_list. congruence.
Qed.

Lemma fileindex_no_bracket cast f :
  contains "[" f = false -> fileindex cast f = Some (Ok (f, VNone)).
Proof. intro H. unfold fileindex. now rewrite H. Qed.

(** With a bracket in [f], [fname] is the text before the first ['['] and
    what is parsed is the text after it, less one closing bracket at its
    end when there is one. *)
Lemma fileindex_bracket cast name rest :
  contains "[" name = false ->
  fileindex cast (name ++ String "[" rest) =
  match last rest with
  | None => Some (Raise IndexError)
  | Some c =>
      v <-? expand cast (if Ascii.eqb c "]" then init rest else rest) ;;
      Some (collapse name v)
  end.
Proof.
  intro Hname. unfold fileindex.
  rewrite contains_app, Hname. simpl contains. simpl negb.
  cbv iota. rewrite (split_app_sep _ _ _ Hname), join_split.
  destruct (last rest) as [c|]; [|reflexivity].
  cbv zeta. unfold expand.
  destruct (strmap cast _) as [[l|e]|]; reflexivity.
Qed.

End FileIndex.

(** C8: without a ['['] in the input [fileindex] returns [(name, None)];
    on [name[content]] it returns the name before the first ['['] with the
    expansion of the bracketed content, or with its only element when the
    expansion is a one-element list; and
    [fileindex("data[1,2,3-6]", int)] is [("data", [1,2,3,4,5,6])]. *)
Theorem fileindex_spec :
  (forall cast f,
      Str.contains "[" f = false ->
      fileindex cast f = Some (Ok (f, VNone))) /\
  (forall cast name content v,
      Str.contains "[" name = false ->
      expand cast content = Some (Ok v) ->
      exists rng,
        v = VList rng /\
        fileindex cast (name ++ "[" ++ content ++ "]") =
        Some (Ok (name, match rng with
                        | [x] => x
                        | _ => VList rng
                        end))) /\
  fileindex PyInt.int "data[1,2,3-6]" =
  Some (Ok ("data", VList [VInt 1; VInt 2; VInt 3; VInt 4; VInt 5; VInt 6])).
Proof.
  split; [exact fileindex_no_bracket|]. split; [|vm_compute; reflexivity].
  intros cast name content v Hname Hv.
  destruct (expand_is_list cast content v Hv) as (rng & ->).
  exists rng. split; [reflexivity|].
  change (name ++ "[" ++ content ++ "]")
    with (name ++ String "[" (content ++ "]")).
  rewrite (fileindex_bracket cast name _ Hname).
  rewrite StrFacts.last_app_char, Ascii.eqb_refl, StrFacts.init_app_char, Hv.
  destruct rng as [|x [|y t]]; reflexivity.
Qed.

Lemma fileindex_spec_witness :
  fileindex PyInt.int "data.txt" = Some (Ok ("data.txt", VNone)) /\
  exists rng,
    VList [VInt 4] = VList rng /\
    fileindex PyInt.int ("run" ++ "[" ++ "4" ++ "]") =
    Some (Ok ("run", match rng with
                     | [x] => x
                     | _ => VList rng
                     end)).
Proof.
  split.
  - apply (proj1 fileindex_spec). reflexivity.
  - apply (proj1 (proj2 fileindex_spec) PyInt.int "run" "4" (VList [VInt 4])).
    + reflexivity.
    + vm_compute. reflexivity.
Defined.

(** C10: [fileindex] does not ask for the bracket to be closed.
    [fileindex("data[1,2")] is [("data", [1, 2])], no exception raised, and
    for every name and every bracket content that does not itself end in
    [']'], the input without the closing bracket gives what the input with
    it gives: only one trailing [']'] is dropped, when there is one. *)
Theorem fileindex_unclosed_bracket :
  fileindex PyInt.int "data[1,2" =
  Some (Ok ("data", VList [VInt 1; VInt 2])) /\
  (forall cast name content,
      Str.contains "[" name = false ->
      Str.last content <> Some "]"%char ->
      fileindex cast (name ++ "[" ++ content) =
      fileindex cast (name ++ "[" ++ content ++ "]")).
Proof.
  split; [vm_compute; reflexivity|].
  intros cast name content Hname Hlast.
  change (name ++ "[" ++ content ++ "]")
    with (name ++ String "[" (content ++ "]")).
  change (name ++ "[" ++ content) with (name ++ String "[" content).
  rewrite !(fileindex_bracket cast name _ Hname).
  rewrite StrFacts.last_app_char, Ascii.eqb_refl, StrFacts.init_app_char.
  destruct (Str.last content) as [c|] eqn:Hc.
  - destruct (Ascii.eqb_spec c "]"); [now subst c | reflexivity].
  - apply StrFacts.last_none in Hc. subst content. reflexivity.
Qed.

Lemma fileindex_unclosed_bracket_witness :
  fileindex PyInt.int ("out" ++ "[" ++ "3-5") =
  fileindex PyInt.int ("out" ++ "[" ++ "3-5" ++ "]").
Proof.
  apply (proj2 fileindex_unclosed_bracket PyInt.int "out" "3-5").
  - reflexivity.
  - vm_compute. discriminate.
Defined.

(** ** Plain comma-separated integers *)

Section PlainIntegers.
Import Str StrFacts.

Lemma digit_neq a c :
  is_digit a = true -> is_digit c = false -> Ascii.eqb a c = false.
Proof.
  intros Ha Hc. destruct (Ascii.eqb_spec a c) as [->|]; congruence.
Qed.

Lemma all_digits_contains c t :
  all_digits t = true -> is_digit c = false -> contains c t = false.
Proof.
  intros Ht Hc. induction t as [|a t IH]; [reflexivity|].
  simpl in *. apply andb_prop in Ht as [Ha Ht].
  rewrite (digit_neq a c Ha Hc). auto.
Qed.

Lemma remove_no_char c t : contains c t = false -> remove c t = t.
Proof.
  induction t as [|a t IH]; [reflexivity|]. simpl.
  destruct (Ascii.eqb a c); [discriminate|].
  intro H. now rewrite IH.
Qed.

(** Dropping the spaces commutes with the split at commas. *)
Lemma split_remove c d s :
  Ascii.eqb c d = false ->
  split c (remove d s) = map (remove d) (split c s).
Proof.
  intro Hcd. induction s as [|a s IH]; [reflexivity|]. simpl.
  destruct (Ascii.eqb a d) eqn:Had.
  - apply Ascii.eqb_eq in Had. subst a.
    rewrite Ascii.eqb_sym, Hcd.
    destruct (split c s) as [|h t] eqn:Es; [now apply split_nonempty in Es|].
    simpl. rewrite Ascii.eqb_refl. exact IH.
  - simpl. destruct (Ascii.eqb a c) eqn:Hac.
    + simpl. now rewrite IH.
    + rewrite IH.
      destruct (split c s) as [|h t] eqn:Es; [now apply split_nonempty in Es|].
      simpl. now rewrite Had.
Qed.

Lemma unsigned_literal_inv t :
  unsigned_literal t = true -> t <> EmptyString /\ all_digits t = true.
Proof.
  unfold unsigned_literal. intro H. apply andb_prop in H as [Hn Hd].
  split; [|exact Hd]. intros ->. discriminate.
Qed.

(** With every entry balanced the merge loop only advances [i]. *)
Lemma merge_loop_all_balanced fuel :
  forall commas i,
    Forall (fun t => balanced t = true) commas ->
    fst (merge_loop fuel commas i) = commas.
Proof.
  induction fuel as [|fuel IH]; intros commas i Hall; [reflexivity|].
  cbn [merge_loop].
  destruct (Nat.ltb_spec i (List.length commas - 1)) as [Hlt|Hge]; [|reflexivity].
  assert (Hb : balanced (item i commas) = true).
  { rewrite Forall_forall in Hall. apply Hall, nth_In. lia. }
  rewrite Hb. now apply IH.
Qed.

Lemma tokens_all_balanced s :
  Forall (fun t => balanced t = true) (split "," (remove " " s)) ->
  tokens s = Ok (split "," (remove " " s)).
Proof.
  intro Hall. unfold tokens, merge_commas.
  rewrite (merge_loop_all_balanced _ _ _ Hall).
  set (l := split "," (remove " " s)) in *.
  assert (Hne : l <> []) by apply split_nonempty.
  assert (Hb : balanced (item (List.length l - 1) l) = true).
  { rewrite Forall_forall in Hall. apply Hall, nth_In.
    destruct l; simpl; [congruence | lia]. }
  now rewrite Hb.
Qed.

End PlainIntegers.

(** ** The segment pattern on a plain segment *)

Section SegmentPattern.
Import Str StrFacts.

(** [.+] followed by something that fails on every rest of the text. *)
Lemma anyplus_no_match {A : Type} (P : string -> Prop) (k : string -> option A) :
  (forall a s, P (String a s) -> P s) ->
  (forall s, P s -> k s = None) ->
  forall s, P s -> anyplus s k = None.
Proof.
  intros Htail Hk s. induction s as [|a s IH]; intro HP; [reflexivity|].
  simpl. destruct (Ascii.eqb a newline); [reflexivity|].
  rewrite (IH (Htail _ _ HP)). apply Hk. exact (Htail _ _ HP).
Qed.

(** [.+] at the end of the pattern takes the whole line. *)
Lemma anyplus_greedy {A : Type} (k : string -> option A) (r : A) s :
  s <> EmptyString ->
  contains newline s = false ->
  k EmptyString = Some r ->
  anyplus s k = Some r.
Proof.
  intros Hne Hnl Hk. induction s as [|a s IH]; [congruence|].
  simpl in *. destruct (Ascii.eqb a newline); [discriminate|].
  destruct s as [|b s]; [exact Hk|].
  rewrite IH; [reflexivity | discriminate | exact Hnl].
Qed.

Lemma take_all s : take (String.length s) s = s.
Proof. induction s as [|a s IH]; simpl; [reflexivity | now rewrite IH]. Qed.

Lemma no_bracket_tail a s :
  contains "[" (String a s) = false -> contains "[" s = false.
Proof. simpl. now destruct (Ascii.eqb a "["). Qed.

(** A non-empty segment without ['['] and without a newline only matches
    the third alternative, whose group takes the whole segment. *)
Lemma first_match_plain t :
  t <> EmptyString ->
  contains "[" t = false ->
  contains newline t = false ->
  first_match _re_segment t = Some (set_group 4 t no_groups).
Proof.
  intros Hne Hbr Hnl.
  assert (H : rmatch _re_segment t no_groups (fun _ g => Some g)
              = Some (set_group 4 t no_groups)).
  { unfold _re_segment. cbn [rmatch].
    replace (match t with
             | EmptyString => None
             | String a s' => if Ascii.eqb a "[" then _ else None
             end) with (@None groups)
      by (destruct t as [|a t']; [reflexivity|]; simpl in Hbr;
          now destruct (Ascii.eqb a "[")).
    rewrite (anyplus_no_match (fun s => contains "[" s = false)).
    - rewrite (anyplus_greedy _ (set_group 4 t no_groups)); auto.
      now rewrite Nat.sub_0_r, take_all.
    - exact no_bracket_tail.
    - intros s Hs. destruct s as [|a s']; [reflexivity|].
      simpl in Hs. now destruct (Ascii.eqb a "[").
    - exact Hbr. }
  destruct t as [|a t']; [congruence|].
  cbn [first_match]. now rewrite H.
Qed.

End SegmentPattern.

(** ** Round trip on plain integers *)

Section RoundTrip.
Import Str StrFacts.

Lemma segment_bare func self t :
  bare t ->
  segment func self t = (a <-? Some (func t) ;; Some (Ok [a])).
Proof.
  intros (Hne & Hbr & Hnl & Hstep & Hspan). unfold segment.
  rewrite (first_match_plain t Hne Hbr Hnl).
  assert (Hn : nonempty t = true).
  { destruct t; [congruence | reflexivity]. }
  change (set_group 4 t no_groups 0%nat) with EmptyString.
  change (set_group 4 t no_groups 2%nat) with EmptyString.
  change (set_group 4 t no_groups 4%nat) with t.
  change (nonempty EmptyString) with false. cbv iota. rewrite Hn.
  unfold strseq. now rewrite Hstep, Hspan.
Qed.

Lemma segments_bare func self commas :
  Forall bare commas ->
  forall l,
    segments func self commas l =
    (vs <-? Some (mapM func commas) ;; Some (Ok (l ++ vs)%list)).
Proof.
  induction 1 as [|t commas Ht Hall IH]; intro l; simpl.
  - now rewrite app_nil_r.
  - rewrite (segment_bare func self t Ht).
    destruct (func t) as [a|e]; simpl; [|reflexivity].
    rewrite IH. destruct (mapM func commas) as [vs|e]; simpl; [|reflexivity].
    now rewrite <- app_assoc.
Qed.

Lemma digit_not_space a : is_digit a = true -> PyInt.is_space a = false.
Proof.
  unfold is_digit, PyInt.is_space. cbv zeta.
  destruct (Nat.leb_spec 48 (nat_of_ascii a)); [|discriminate].
  destruct (Nat.leb_spec (nat_of_ascii a) 57); [|discriminate].
  intros _.
  destruct (Nat.leb_spec (nat_of_ascii a) 13); [lia|].
  destruct (Nat.leb_spec (nat_of_ascii a) 32); [lia|].
  now rewrite !andb_false_r.
Qed.

Lemma rstrip_digits t : all_digits t = true -> PyInt.rstrip t = t.
Proof.
  induction t as [|a t IH]; [reflexivity|]. simpl.
  intro H. apply andb_prop in H as [Ha Ht].
  rewrite (IH Ht), (digit_not_space a Ha). now destruct t.
Qed.

Lemma digits_all t :
  all_digits t = true ->
  forall acc, exists z, PyInt.digits false acc t = Some z.
Proof.
  induction t as [|a t IH]; intros H acc; [now exists acc|].
  simpl in H. apply andb_prop in H as [Ha Ht].
  simpl. unfold PyInt.digit_of. unfold is_digit in Ha. cbv zeta in *.
  rewrite Ha. apply IH, Ht.
Qed.

(** [int] accepts every unsigned literal. *)
Lemma int_unsigned_literal t :
  unsigned_literal t = true -> exists z, PyInt.int t = Ok (VInt z).
Proof.
  intro H. apply unsigned_literal_inv in H as [Hne Hd].
  destruct t as [|a t]; [congruence|].
  unfold PyInt.int. cbv zeta.
  assert (Ha : is_digit a = true) by (simpl in Hd; now apply andb_prop in Hd).
  assert (Ht : all_digits t = true) by (simpl in Hd; now apply andb_prop in Hd).
  replace (PyInt.lstrip (String a t)) with (String a t)
    by (simpl; now rewrite (digit_not_space a Ha)).
  rewrite (rstrip_digits _ Hd).
  assert (E : PyInt.digits true 0 (String a t)
              = PyInt.digits false (10 * 0 + Z.of_nat (nat_of_ascii a - 48)) t).
  { simpl. unfold PyInt.digit_of. unfold is_digit in Ha. cbv zeta in *.
    now rewrite Ha. }
  destruct (digits_all t Ht (10 * 0 + Z.of_nat (nat_of_ascii a - 48))) as [z Hz].
  exists z. rewrite Hz in E.
  assert (Hplus : Ascii.eqb a "+" = false) by (apply digit_neq; auto).
  assert (Hminus : Ascii.eqb a "-" = false) by (apply digit_neq; auto).
  replace (match String a t with
           | String "+" r => PyInt.digits true 0 r
           | String "-" r => option_map Z.opp (PyInt.digits true 0 r)
           | _ => PyInt.digits true 0 (String a t)
           end) with (PyInt.digits true 0 (String a t)).
  - now rewrite E.
  - destruct a as [[] [] [] [] [] [] [] []]; try reflexivity; discriminate.
Qed.

Lemma mapM_int_literals toks :
  forallb unsigned_literal toks = true ->
  exists zs, mapM PyInt.int toks = Ok (map VInt zs).
Proof.
  induction toks as [|t toks IH]; intro H; [now exists []|].
  simpl in H. apply andb_prop in H as [Ht Hs].
  destruct (int_unsigned_literal t Ht) as [z Hz].
  destruct (IH Hs) as [zs Hzs].
  exists (z :: zs). simpl. now rewrite Hz, Hzs.
Qed.

(** Integers are leaves: the expander keeps them, in order. *)
Lemma extend_each_ints cast zs :
  forall l,
    extend_each cast (map VInt zs) l = Ok (VList (l ++ map VInt zs)%list).
Proof.
  induction zs as [|z zs IH]; intro l; simpl.
  - now rewrite app_nil_r.
  - rewrite IH. now rewrite <- app_assoc.
Qed.

Lemma unsigned_literal_bare t : unsigned_literal t = true -> bare t.
Proof.
  intro H. apply unsigned_literal_inv in H as [Hne Hd].
  repeat split; [exact Hne | ..]; now apply all_digits_contains.
Qed.

End RoundTrip.

(** C5, as stated, fails on a signed literal: [int("-5")] is [-5], but
    [strseq] takes the ['-'] for the span separator and casts the empty
    text before it, which raises. *)
Lemma expand_signed_literal_raises :
  mapM PyInt.int (Str.split "," "-5") = Ok [VInt (-5)] /\
  expand PyInt.int "-5" = Some (Raise PyInt.invalid_literal) /\
  expand PyInt.int "-5" <> Some (Ok (VList [VInt (-5)])).
Proof.
  split; [reflexivity|]. split; [vm_compute; reflexivity|].
  vm_compute. discriminate.
Qed.

(** C5 (amended): for every string made only of comma-separated unsigned
    decimal literals (digits only: no sign, no bracket),
    [lstranges(strmap(int, s))] is [[int(x) for x in s.split(',')]], the
    same values in the same order, none dropped. *)
Theorem expand_plain_integers s :
  plain_integers s = true ->
  exists zs,
    mapM PyInt.int (Str.split "," s) = Ok (map VInt zs) /\
    List.length zs = List.length (Str.split "," s) /\
    expand PyInt.int s = Some (Ok (VList (map VInt zs))).
Proof.
  unfold plain_integers. intro H.
  destruct (mapM_int_literals _ H) as [zs Hzs].
  exists zs. split; [exact Hzs|].
  assert (Hall : Forall (fun t => unsigned_literal t = true) (Str.split "," s))
    by (apply Forall_forall; now apply forallb_forall).
  assert (Hbare : Forall bare (Str.split "," s)).
  { eapply Forall_impl; [|exact Hall]. exact unsigned_literal_bare. }
  assert (Hsp : Str.split "," (Str.remove " " s) = Str.split "," s).
  { rewrite split_remove by reflexivity.
    rewrite <- (map_id (Str.split "," s)) at 2.
    apply map_ext_in. intros t Ht.
    rewrite Forall_forall in Hall. specialize (Hall t Ht).
    apply unsigned_literal_inv in Hall as [_ Hd].
    apply remove_no_char. now apply all_digits_contains. }
  assert (Htok : tokens s = Ok (Str.split "," s)).
  { rewrite <- Hsp. apply tokens_all_balanced. rewrite Hsp.
    eapply Forall_impl; [|exact Hall]. intros t Ht.
    apply unsigned_literal_inv in Ht as [_ Hd].
    unfold balanced.
    rewrite !StrFacts.count_no_sep by (now apply all_digits_contains).
    reflexivity. }
  split.
  - clear -Hzs. revert zs Hzs.
    induction (Str.split "," s) as [|t toks IH]; intros zs Hzs.
    + simpl in Hzs. destruct zs; [reflexivity | discriminate].
    + simpl in Hzs. destruct (PyInt.int t); simpl in Hzs; [|discriminate].
      destruct (mapM PyInt.int toks) as [vs|]; simpl in Hzs; [|discriminate].
      destruct zs as [|z zs]; [discriminate|].
      injection Hzs as -> ->. simpl. f_equal. now apply IH.
  - unfold expand, strmap. cbn [strmap_fuel]. rewrite Htok. cbn [bindF].
    rewrite (segments_bare _ _ _ Hbare), Hzs. cbn [bindF app].
    rewrite lstranges_list, extend_each_ints. reflexivity.
Qed.

Lemma expand_plain_integers_witness :
  exists zs,
    mapM PyInt.int (Str.split "," "1,3,5,3") = Ok (map VInt zs) /\
    List.length zs = List.length (Str.split "," "1,3,5,3") /\
    expand PyInt.int "1,3,5,3" = Some (Ok (VList (map VInt zs))).
Proof.
  apply (expand_plain_integers "1,3,5,3"). reflexivity.
Defined.


(** * Further properties of the module *)

(** ** Termination of [strmap] *)

(** X1: [strmap] terminates on every input and for every cast: its
    recursive calls are on strictly shorter strings, so the embedding never
    runs out of fuel, a larger fuel gives the same outcome, and [fileindex],
    which calls it, terminates too. *)
Theorem strmap_terminates :
  forall func s,
    strmap func s <> None /\
    (forall extra,
        strmap_fuel (S (String.length s) + extra) func s = strmap func s) /\
    fileindex func s <> None.
Proof.
  intros func s. split; [apply strmap_total|]. split.
  - intro extra. apply strmap_fuel_enough. lia.
  - unfold fileindex.
    destruct (negb (Str.contains "[" s)); [discriminate|].
    destruct (Str.split "[" s) as [|fname rest]; [discriminate|].
    destruct (Str.last _) as [c|]; [|discriminate].
    cbv zeta.
    destruct (strmap func _) as [[l|e]|] eqn:E; cbn [bindF];
      [| discriminate | now apply strmap_total in E].
    destruct (lstranges erange (VList l)); cbn [bindF]; discriminate.
Qed.

(** ** Empty input *)

(** X2: an input that is empty once its spaces are dropped matches nothing
    of the segment pattern, and [strmap] raises [IndexError] on it, whatever
    the cast. *)
Theorem strmap_blank_raises func s :
  Str.remove " " s = EmptyString ->
  strmap func s = Some (Raise IndexError).
Proof.
  intro H. unfold strmap. cbn [strmap_fuel]. unfold tokens. rewrite H.
  reflexivity.
Qed.

Lemma strmap_blank_raises_witness :
  strmap PyInt.int "   " = Some (Raise IndexError).
Proof.
  apply (strmap_blank_raises PyInt.int "   "). reflexivity.
Defined.

(** ** The shape of what [lstranges] returns *)

(** X3: for every range constructor, [lstranges] of a list is a list
    whenever it returns: a one-element list is never turned into its
    element. *)
Theorem lstranges_of_list_is_list cast vs v :
  lstranges cast (VList vs) = Ok v -> exists l, v = VList l.
Proof.
  rewrite lstranges_list. apply extend_each_is_list.
Qed.

Lemma lstranges_of_list_is_list_witness :
  exists l, VList [VInt 4] = VList l.
Proof.
  apply (lstranges_of_list_is_list erange [VInt 4] (VList [VInt 4])).
  reflexivity.
Defined.

(** ** [fileindex] at its edges *)

Lemma contains_cut c f :
  Str.contains c f = true ->
  exists name rest,
    f = name ++ String c rest /\ Str.contains c name = false.
Proof.
  induction f as [|a f IH]; simpl; [discriminate|].
  destruct (Ascii.eqb a c) eqn:E.
  - intros _. apply Ascii.eqb_eq in E. subst a.
    now exists EmptyString, f.
  - intro H. destruct (IH H) as (name & rest & -> & Hn).
    exists (String a name), rest. split; [reflexivity|].
    simpl. now rewrite E.
Qed.

(** X4: an opening bracket with nothing after it, or with an empty pair of
    brackets, makes [fileindex] raise [IndexError], for every name and
    cast. *)
Theorem fileindex_empty_index_raises cast name :
  Str.contains "[" name = false ->
  fileindex cast (name ++ "[") = Some (Raise IndexError) /\
  fileindex cast (name ++ "[]") = Some (Raise IndexError).
Proof.
  intro H. split.
  - change (name ++ "[") with (name ++ String "[" EmptyString).
    now rewrite (fileindex_bracket cast name _ H).
  - change (name ++ "[]") with (name ++ String "[" "]").
    now rewrite (fileindex_bracket cast name _ H).
Qed.

Lemma fileindex_empty_index_raises_witness :
  fileindex PyInt.int ("data" ++ "[") = Some (Raise IndexError) /\
  fileindex PyInt.int ("data" ++ "[]") = Some (Raise IndexError).
Proof.
  apply (fileindex_empty_index_raises PyInt.int "data"). reflexivity.
Defined.

(** X5: the name [fileindex] returns never holds a ['[']: it is the whole
    input, with [None] for the indices, when the input has no bracket, and
    the text before the first ['['] otherwise. *)
Theorem fileindex_name cast f name v :
  fileindex cast f = Some (Ok (name, v)) ->
  Str.contains "[" name = false /\
  ((f = name /\ v = VNone) \/ exists rest, f = name ++ "[" ++ rest).
Proof.
  destruct (Str.contains "[" f) eqn:Hc.
  - destruct (contains_cut _ _ Hc) as (name' & rest & -> & Hn).
    rewrite (fileindex_bracket cast name' rest Hn).
    destruct (Str.last rest) as [c|]; [|discriminate].
    destruct (expand cast _) as [[w|e]|]; cbn [bindF]; try discriminate.
    unfold collapse.
    destruct (py_len w) as [n|e]; cbn [bind]; [|discriminate].
    destruct (n =? 1)%nat.
    + destruct (py_first w); cbn [bind]; [|discriminate].
      intro H. injection H as <- <-. split; [exact Hn|]. right. now exists rest.
    + intro H. injection H as <- <-. split; [exact Hn|]. right. now exists rest.
  - rewrite (fileindex_no_bracket cast f Hc).
    intro H. injection H as <- <-. split; [exact Hc|]. now left.
Qed.

Lemma fileindex_name_witness :
  Str.contains "[" "data" = false /\
  (("data[7" = "data" /\ VInt 7 = VNone) \/
   exists rest, "data[7" = "data" ++ "[" ++ rest).
Proof.
  apply (fileindex_name PyInt.int "data[7" "data" (VInt 7)).
  vm_compute. reflexivity.
Defined.

(** ** The tokenizer of [strmap] *)

Section Tokenizer.
Import Str StrFacts.

Lemma join_cons sep h t :
  t <> [] -> join sep (h :: t) = h ++ sep ++ join sep t.
Proof. destruct t; [congruence | reflexivity]. Qed.

Lemma join_merge commas i :
  (S i < List.length commas)%nat ->
  join "," (del_item (S i)
              (set_item i (item i commas ++ "," ++ item (S i) commas) commas))
  = join "," commas.
Proof.
  revert i. induction commas as [|h t IH]; intros i Hi; simpl in Hi; [lia|].
  destruct i as [|i].
  - destruct t as [|h' t]; simpl in Hi; [lia|].
    cbn [set_item del_item item nth].
    destruct t as [|h'' t]; [reflexivity|].
    rewrite !join_cons by discriminate.
    now rewrite !append_assoc.
  - change (del_item (S (S i))
              (set_item (S i) (item (S i) (h :: t) ++ "," ++ item (S (S i)) (h :: t))
                 (h :: t)))
      with (h :: del_item (S i) (set_item i (item i t ++ "," ++ item (S i) t) t)).
    rewrite !join_cons.
    + rewrite IH by lia. reflexivity.
    + destruct t; simpl in Hi; [lia | discriminate].
    + intro E. apply (f_equal (@List.length string)) in E.
      rewrite merge_entry_length in E by lia. simpl in E. lia.
Qed.

Lemma merge_loop_join fuel :
  forall commas i, join "," (fst (merge_loop fuel commas i)) = join "," commas.
Proof.
  induction fuel as [|fuel IH]; intros commas i; [reflexivity|].
  cbn [merge_loop].
  destruct (Nat.ltb_spec i (List.length commas - 1)) as [Hlt|Hge]; [|reflexivity].
  destruct (balanced (item i commas)); [apply IH|].
  rewrite IH. apply join_merge. lia.
Qed.

Lemma count_remove c d s :
  Ascii.eqb c d = false -> count c (remove d s) = count c s.
Proof.
  intro H. induction s as [|a s IH]; [reflexivity|]. simpl.
  destruct (Ascii.eqb a d) eqn:Ead.
  - apply Ascii.eqb_eq in Ead. subst a.
    rewrite Ascii.eqb_sym, H. exact IH.
  - simpl. destruct (Ascii.eqb a c); now rewrite IH.
Qed.

Lemma count_all_split c d s :
  Ascii.eqb c d = false -> count_all c (split d s) = count c s.
Proof.
  intro H. induction s as [|a s IH]; [reflexivity|]. simpl.
  destruct (Ascii.eqb a d) eqn:Ead.
  - apply Ascii.eqb_eq in Ead. subst a.
    rewrite Ascii.eqb_sym, H. simpl. exact IH.
  - destruct (split d s) as [|h t] eqn:Es; [now apply split_nonempty in Es|].
    simpl in *. destruct (Ascii.eqb a c); lia.
Qed.

Lemma count_all_app c l1 l2 :
  count_all c (l1 ++ l2)%list = (count_all c l1 + count_all c l2)%nat.
Proof. induction l1 as [|h t IH]; simpl; [reflexivity | rewrite IH; lia]. Qed.

Lemma count_all_merge c commas i :
  Ascii.eqb "," c = false ->
  (S i < List.length commas)%nat ->
  count_all c (del_item (S i)
                 (set_item i (item i commas ++ "," ++ item (S i) commas) commas))
  = count_all c commas.
Proof.
  intro Hc. revert i.
  induction commas as [|h t IH]; intros i Hi; simpl in Hi; [lia|].
  destruct i as [|i].
  - destruct t as [|h' t]; simpl in Hi; [lia|].
    cbn [set_item del_item item nth count_all].
    rewrite count_app.
    change (count c ("," ++ h'))
      with (if Ascii.eqb "," c then S (count c h') else count c h').
    rewrite Hc. lia.
  - change (count c h
            + count_all c (del_item (S i)
                             (set_item i (item i t ++ "," ++ item (S i) t) t))
            = count c h + count_all c t)%nat.
    rewrite IH by lia. reflexivity.
Qed.

Lemma merge_loop_count_all c fuel :
  Ascii.eqb "," c = false ->
  forall commas i,
    count_all c (fst (merge_loop fuel commas i)) = count_all c commas.
Proof.
  intro Hc. induction fuel as [|fuel IH]; intros commas i; [reflexivity|].
  cbn [merge_loop].
  destruct (Nat.ltb_spec i (List.length commas - 1)) as [Hlt|Hge]; [|reflexivity].
  destruct (balanced (item i commas)); [apply IH|].
  rewrite IH. apply count_all_merge; [exact Hc | lia].
Qed.

Lemma count_all_balanced l :
  Forall is_balanced l -> count_all "[" l = count_all "]" l.
Proof.
  induction 1 as [|t l Ht Hl IH]; [reflexivity|].
  simpl. unfold is_balanced in Ht. lia.
Qed.

(** The bracket counts of the last merged entry differ exactly as those of
    the whole input do. *)
Lemma last_entry_counts s :
  let commas := merge_commas (split "," (remove " " s)) in
  let t := item (List.length commas - 1) commas in
  (count "[" t + count "]" s = count "]" t + count "[" s)%nat.
Proof.
  cbv zeta.
  set (commas := merge_commas (split "," (remove " " s))).
  destruct (merge_commas_prefix_balanced (split "," (remove " " s))
              (split_nonempty _ _)) as (Hne & Hpre).
  fold commas in Hne, Hpre.
  assert (Hopen : count_all "[" commas = count "[" s).
  { unfold commas, merge_commas.
    rewrite merge_loop_count_all, count_all_split, count_remove; reflexivity. }
  assert (Hclose : count_all "]" commas = count "]" s).
  { unfold commas, merge_commas.
    rewrite merge_loop_count_all, count_all_split, count_remove; reflexivity. }
  rewrite (firstn_last_item commas Hne) in Hopen, Hclose.
  rewrite count_all_app in Hopen, Hclose.
  apply count_all_balanced in Hpre.
  simpl in Hopen, Hclose. lia.
Qed.

Lemma remove_idempotent c s : remove c (remove c s) = remove c s.
Proof.
  induction s as [|a s IH]; [reflexivity|]. simpl.
  destruct (Ascii.eqb a c) eqn:E; [exact IH|].
  simpl. now rewrite E, IH.
Qed.

Lemma contains_remove c d s :
  contains c s = false -> contains c (remove d s) = false.
Proof.
  induction s as [|a s IH]; [reflexivity|]. simpl.
  destruct (Ascii.eqb a c) eqn:E; [discriminate|].
  intro H. destruct (Ascii.eqb a d); [now apply IH|].
  simpl. rewrite E. now apply IH.
Qed.

Lemma contains_split c d s :
  contains c s = false -> Forall (fun t => contains c t = false) (split d s).
Proof.
  induction s as [|a s IH]; simpl; [now repeat constructor|].
  destruct (Ascii.eqb a c) eqn:E; [discriminate|].
  intro H. specialize (IH H).
  destruct (Ascii.eqb a d).
  - constructor; [reflexivity | exact IH].
  - destruct (split d s) as [|h t]; [repeat constructor; simpl; now rewrite E|].
    inversion IH; subst. constructor; [simpl; now rewrite E | assumption].
Qed.

End Tokenizer.

(** X6: the tokenizer loses nothing: when the bracket check passes, the
    entries handed to the segment loop, joined by commas again, are the
    input without its spaces. *)
Theorem tokens_join s commas :
  tokens s = Ok commas -> Str.join "," commas = Str.remove " " s.
Proof.
  unfold tokens, merge_commas.
  destruct (balanced _); [|discriminate].
  intro H. injection H as <-.
  rewrite merge_loop_join. apply StrFacts.join_split.
Qed.

Lemma tokens_join_witness :
  Str.join "," ["1-3[2,3]"; "7"] = Str.remove " " "1-3[2, 3], 7".
Proof.
  apply (tokens_join "1-3[2, 3], 7" ["1-3[2,3]"; "7"]). reflexivity.
Defined.

(** X7: the bracket check of [strmap] is a count over the whole input: the
    check fails, and [strmap] raises the unbalanced [ValueError] for every
    cast, if and only if the input has not as many ['['] as [']'], wherever
    they stand. *)
Theorem strmap_check_counts_brackets s :
  (tokens s = Raise unbalanced <-> Str.count "[" s <> Str.count "]" s) /\
  (forall func,
      Str.count "[" s <> Str.count "]" s ->
      strmap func s = Some (Raise unbalanced)).
Proof.
  assert (H : tokens s = Raise unbalanced <-> Str.count "[" s <> Str.count "]" s).
  { pose proof (last_entry_counts s) as Hc. cbv zeta in Hc.
    unfold tokens, balanced.
    destruct (Nat.eqb_spec
                (Str.count "[" (item (List.length (merge_commas (Str.split "," (Str.remove " " s))) - 1)
                                  (merge_commas (Str.split "," (Str.remove " " s)))))
                (Str.count "]" (item (List.length (merge_commas (Str.split "," (Str.remove " " s))) - 1)
                                  (merge_commas (Str.split "," (Str.remove " " s))))))
      as [E|E].
    - split; [discriminate | lia].
    - split; [lia | reflexivity]. }
  split; [exact H|].
  intros func Hne. apply H in Hne.
  unfold strmap. cbn [strmap_fuel]. now rewrite Hne.
Qed.

Lemma strmap_check_counts_brackets_witness :
  strmap PyInt.int "1]2[3[" = Some (Raise unbalanced).
Proof.
  apply (proj2 (strmap_check_counts_brackets "1]2[3[") PyInt.int).
  vm_compute. discriminate.
Defined.

(** X8: spaces do not count: [strmap] gives the same outcome on an input
    and on the input with all its spaces dropped. *)
Theorem strmap_ignores_spaces func s :
  strmap func s = strmap func (Str.remove " " s).
Proof.
  rewrite <- (strmap_fuel_enough func (S (String.length s)) (Str.remove " " s))
    by (pose proof (length_remove " " s); lia).
  unfold strmap. cbn [strmap_fuel]. unfold tokens.
  now rewrite remove_idempotent.
Qed.

(** ** The bracketed forms of a segment *)

Section BracketedForms.
Import Str StrFacts.

(** [.+] stops at the last place from which the rest of the pattern
    succeeds. *)
Lemma anyplus_split {A : Type} (k : string -> option A) (r : A) pre post :
  pre <> EmptyString ->
  contains newline pre = false ->
  anyplus post k = None ->
  k post = Some r ->
  anyplus (pre ++ post) k = Some r.
Proof.
  intros Hne Hnl Hlater Hhere.
  induction pre as [|a pre IH]; [congruence|].
  simpl in *. destruct (Ascii.eqb a newline); [discriminate|].
  destruct pre as [|b pre].
  - simpl. now rewrite Hlater.
  - rewrite IH; [reflexivity | discriminate | exact Hnl].
Qed.

Lemma take_app a b : take (String.length a) (a ++ b) = a.
Proof. induction a as [|x a IH]; simpl; [now destruct b | now rewrite IH]. Qed.

Lemma take_app_minus a b :
  take (String.length (a ++ b) - String.length b) (a ++ b) = a.
Proof.
  rewrite length_append.
  replace (String.length a + String.length b - String.length b)%nat
    with (String.length a) by lia.
  apply take_app.
Qed.

Lemma first_char_no_bracket x rest :
  x <> EmptyString -> contains "[" x = false ->
  exists a s', x ++ rest = String a s' /\ Ascii.eqb a "[" = false.
Proof.
  intros Hne Hx. destruct x as [|a x]; [congruence|].
  exists a, (x ++ rest). split; [reflexivity|].
  simpl in Hx. now destruct (Ascii.eqb a "[").
Qed.

(** [x[y]]: the second alternative matches, with groups [x] and [y]. *)
Lemma first_match_suffixed x y :
  x <> EmptyString -> contains "[" x = false -> contains newline x = false ->
  y <> EmptyString -> contains "[" y = false -> contains newline y = false ->
  exists m,
    first_match _re_segment (x ++ String "[" (y ++ "]")) = Some m /\
    m 0%nat = EmptyString /\ m 2%nat = x /\ m 3%nat = y.
Proof.
  intros Hx Hxb Hxn Hy Hyb Hyn.
  set (m := set_group 3 y (set_group 2 x no_groups)).
  exists m. split; [|now repeat split].
  assert (H : rmatch _re_segment (x ++ String "[" (y ++ "]")) no_groups
                (fun _ g => Some g) = Some m).
  { unfold _re_segment. cbn [rmatch].
    replace (match x ++ String "[" (y ++ "]") with
             | EmptyString => None
             | String a s' => if Ascii.eqb a "[" then _ else None
             end) with (@None groups)
      by (destruct x as [|a x']; [congruence|]; simpl in Hxb |- *;
          now destruct (Ascii.eqb a "[")).
    rewrite (anyplus_split _ m x (String "[" (y ++ "]")) Hx Hxn); [reflexivity | |].
    - cbn [anyplus]. change (Ascii.eqb "[" newline) with false. cbv iota.
      rewrite (anyplus_no_match (fun t => contains "[" t = false)).
      + assert (Hc : contains "[" (y ++ "]") = false)
          by (rewrite contains_app, Hyb; reflexivity).
        destruct (y ++ "]") as [|b t] eqn:E; [reflexivity|].
        simpl in Hc. now destruct (Ascii.eqb b "[").
      + exact no_bracket_tail.
      + intros t Ht. destruct t as [|b t]; [reflexivity|].
        simpl in Ht. now destruct (Ascii.eqb b "[").
      + rewrite contains_app, Hyb. reflexivity.
    - rewrite Ascii.eqb_refl.
      rewrite (anyplus_split _ m y "]" Hy Hyn); [reflexivity | reflexivity |].
      cbn [String.length]. change (Ascii.eqb "]" "]") with true. cbv iota.
      unfold m. f_equal. f_equal.
      + change 1%nat with (String.length "]"). apply take_app_minus.
      + f_equal.
        change (S (String.length (y ++ "]")))
          with (String.length (String "[" (y ++ "]"))).
        apply take_app_minus. }
  destruct (x ++ String "[" (y ++ "]")) as [|a s']; cbn [first_match];
    now rewrite H.
Qed.

(** [[x][y]]: the first alternative matches, with groups [x] and [y]. *)
Lemma first_match_double x y :
  x <> EmptyString -> contains newline x = false ->
  y <> EmptyString -> contains "[" y = false -> contains newline y = false ->
  exists m,
    first_match _re_segment (String "[" (x ++ String "]" (String "[" (y ++ "]"))))
    = Some m /\
    m 0%nat = x /\ m 1%nat = y.
Proof.
  intros Hx Hxn Hy Hyb Hyn.
  set (m := set_group 1 y (set_group 0 x no_groups)).
  exists m. split; [|now split].
  assert (Hc : contains "[" (y ++ "]") = false)
    by (rewrite contains_app, Hyb; reflexivity).
  cbn [first_match].
  replace (rmatch _re_segment
             (String "[" (x ++ String "]" (String "[" (y ++ "]"))))
             no_groups (fun _ g => Some g)) with (Some m); [reflexivity|].
  symmetry. unfold _re_segment. cbn [rmatch].
  change (Ascii.eqb "[" "[") with true. cbv iota.
  rewrite (anyplus_split _ m x (String "]" (String "[" (y ++ "]"))) Hx Hxn);
    [reflexivity | |].
  - cbn [anyplus].
    change (Ascii.eqb "]" newline) with false.
    change (Ascii.eqb "[" newline) with false.
    change (Ascii.eqb "[" "]") with false. cbv iota.
    rewrite (anyplus_no_match (fun t => contains "[" t = false)).
    + destruct (y ++ "]") as [|b t] eqn:E; [reflexivity|].
      destruct (Ascii.eqb b "]"); [|reflexivity].
      destruct t as [|c t]; [reflexivity|].
      simpl in Hc. destruct (Ascii.eqb b "["); [discriminate|].
      now destruct (Ascii.eqb c "[").
    + exact no_bracket_tail.
    + intros t Ht. destruct t as [|b t]; [reflexivity|].
      destruct (Ascii.eqb b "]"); [|reflexivity].
      destruct t as [|c t]; [reflexivity|].
      simpl in Ht. destruct (Ascii.eqb b "["); [discriminate|].
      now destruct (Ascii.eqb c "[").
    + exact Hc.
  - change (Ascii.eqb "]" "]") with true. change (Ascii.eqb "[" "[") with true.
    cbv iota.
    rewrite (anyplus_split _ m y "]" Hy Hyn); [reflexivity | reflexivity |].
    cbn [String.length]. change (Ascii.eqb "]" "]") with true. cbv iota.
    unfold m. f_equal. f_equal.
    + change 1%nat with (String.length "]"). apply take_app_minus.
    + f_equal.
      change (S (S (String.length (y ++ "]"))))
        with (String.length (String "]" (String "[" (y ++ "]")))).
      apply take_app_minus.
Qed.

End BracketedForms.

Section NestedTokens.
Import Str StrFacts.

Lemma app_cut (p q a b : string) :
  p ++ q = a ++ b ->
  (exists r, a = p ++ r /\ q = r ++ b) \/ (exists r, p = a ++ r /\ b = r ++ q).
Proof.
  revert a. induction p as [|c p IH]; intros a H.
  - left. exists a. now split.
  - destruct a as [|d a].
    + right. exists (String c p). now split.
    + simpl in H. injection H as -> H.
      destruct (IH a H) as [(r & -> & ->)|(r & -> & ->)].
      * left. now exists r.
      * right. now exists r.
Qed.

(** A comma in [y]] comes before the closing bracket. *)
Lemma prefix_before_comma y r w :
  y ++ "]" = r ++ String "," w -> exists r2, y = r ++ r2.
Proof.
  intro H. symmetry in H.
  destruct (app_cut r (String "," w) y "]" H) as [(r2 & -> & E)|(r2 & -> & E)].
  - now exists r2.
  - destruct r2 as [|c r2]; [discriminate|].
    simpl in E. injection E as _ E. now destruct r2.
Qed.

Lemma balanced_counts t o c :
  count "[" t = o -> count "]" t = c -> o <> c -> balanced t = false.
Proof.
  intros <- <- H. unfold balanced. now apply Nat.eqb_neq.
Qed.

(** An input that is balanced as a whole but at none of its commas is one
    entry for the segment loop. *)
Lemma tokens_single s :
  contains " " s = false ->
  balanced s = true ->
  (forall t0 w, s = t0 ++ String "," w -> balanced t0 = false) ->
  tokens s = Ok [s].
Proof.
  intros Hsp Hb Hcut. unfold tokens.
  rewrite (remove_no_char " " s Hsp).
  set (commas := merge_commas (split "," s)).
  assert (Hjoin : join "," commas = s).
  { unfold commas, merge_commas. rewrite merge_loop_join. apply join_split. }
  destruct (merge_commas_prefix_balanced (split "," s) (split_nonempty _ _))
    as (Hne & Hpre).
  fold commas in Hne, Hpre.
  destruct commas as [|t0 [|t1 rest]]; [congruence | |].
  - simpl in Hjoin. subst t0. cbn [List.length Nat.sub item nth]. now rewrite Hb.
  - exfalso.
    assert (H0 : is_balanced t0).
    { cbn [List.length Nat.sub] in Hpre.
      change (firstn (S (List.length rest)) (t0 :: t1 :: rest))
        with (t0 :: firstn (List.length rest) (t1 :: rest)) in Hpre.
      now inversion Hpre. }
    apply balanced_spec in H0.
    rewrite join_cons in Hjoin by discriminate.
    symmetry in Hjoin. apply Hcut in Hjoin. congruence.
Qed.

Lemma bracket_free_counts t :
  contains "[" t = false -> contains "]" t = false ->
  count "[" t = O /\ count "]" t = O.
Proof. intros H1 H2. split; now apply count_no_sep. Qed.

Lemma tokens_suffixed x y :
  bracket_free x -> contains "," x = false -> bracket_free y ->
  tokens (x ++ String "[" (y ++ "]")) = Ok [x ++ String "[" (y ++ "]")].
Proof.
  intros (Hx & Hxo & Hxc & Hxs & Hxn) Hxk (Hy & Hyo & Hyc & Hys & Hyn).
  destruct (bracket_free_counts x Hxo Hxc) as [Cxo Cxc].
  destruct (bracket_free_counts y Hyo Hyc) as [Cyo Cyc].
  apply tokens_single.
  - rewrite contains_app, Hxs. simpl. now rewrite contains_app, Hys.
  - unfold balanced. rewrite !count_app. simpl. rewrite !count_app.
    simpl. now rewrite Cxo, Cxc, Cyo, Cyc.
  - intros t0 w H. symmetry in H.
    destruct (app_cut _ _ _ _ H) as [(r & Ex & E)|(r & -> & E)].
    + exfalso. destruct r as [|c r]; [discriminate|].
      injection E as <- _. rewrite Ex, contains_app in Hxk.
      simpl in Hxk. now rewrite orb_true_r in Hxk.
    + destruct r as [|c r]; [discriminate|].
      simpl in E. injection E as <- E.
      destruct (prefix_before_comma y r w E) as (r2 & ->).
      rewrite contains_app in Hyo, Hyc.
      apply orb_false_elim in Hyo as [Hro _].
      apply orb_false_elim in Hyc as [Hrc _].
      destruct (bracket_free_counts r Hro Hrc) as [Cro Crc].
      apply (balanced_counts _ 1%nat 0%nat); [| | discriminate].
      * rewrite count_app. simpl. now rewrite Cxo, Cro.
      * rewrite count_app. simpl. now rewrite Cxc, Crc.
Qed.

Lemma tokens_double x y :
  bracket_free x -> bracket_free y ->
  let s := String "[" (x ++ String "]" (String "[" (y ++ "]"))) in
  tokens s = Ok [s].
Proof.
  intros (Hx & Hxo & Hxc & Hxs & Hxn) (Hy & Hyo & Hyc & Hys & Hyn) s.
  destruct (bracket_free_counts x Hxo Hxc) as [Cxo Cxc].
  destruct (bracket_free_counts y Hyo Hyc) as [Cyo Cyc].
  apply tokens_single.
  - unfold s. simpl. rewrite contains_app, Hxs. simpl.
    now rewrite contains_app, Hys.
  - unfold balanced, s. simpl. rewrite !count_app. simpl. rewrite !count_app.
    simpl. rewrite Cxo, Cxc, Cyo, Cyc. reflexivity.
  - intros t0 w H. unfold s in H.
    destruct t0 as [|c t0]; [discriminate|].
    simpl in H. injection H as <- H. symmetry in H.
    destruct (app_cut _ _ _ _ H) as [(r & Ex & E)|(r & -> & E)].
    + rewrite Ex, contains_app in Hxo, Hxc.
      apply orb_false_elim in Hxo as [Hto _].
      apply orb_false_elim in Hxc as [Htc _].
      destruct (bracket_free_counts t0 Hto Htc) as [Cto Ctc].
      apply (balanced_counts _ 1%nat 0%nat); [| | discriminate].
      * simpl. now rewrite Cto.
      * simpl. now rewrite Ctc.
    + destruct r as [|c r]; [discriminate|].
      simpl in E. injection E as <- E.
      destruct r as [|c r]; [discriminate|].
      simpl in E. injection E as <- E.
      destruct (prefix_before_comma y r w E) as (r2 & ->).
      rewrite contains_app in Hyo, Hyc.
      apply orb_false_elim in Hyo as [Hro _].
      apply orb_false_elim in Hyc as [Hrc _].
      destruct (bracket_free_counts r Hro Hrc) as [Cro Crc].
      apply (balanced_counts _ 2%nat 1%nat); [| | discriminate].
      * simpl. rewrite count_app. simpl. now rewrite Cxo, Cro.
      * simpl. rewrite count_app. simpl. now rewrite Cxc, Crc.
Qed.

End NestedTokens.

Section BracketedSegments.
Import Str StrFacts.

Lemma nonempty_true t : t <> EmptyString -> nonempty t = true.
Proof. destruct t; [congruence | reflexivity]. Qed.

End BracketedSegments.

Lemma strmap_suffixed_eq func x y :
  bracket_free x -> Str.contains "," x = false -> bracket_free y ->
  strmap func (x ++ "[" ++ y ++ "]") =
  (a <-? Some (strseq func x) ;;
   b <-? strmap func y ;;
   Some (Ok [VTuple [a; VList b]])).
Proof.
  intros Hx Hxk Hy.
  change (x ++ "[" ++ y ++ "]") with (x ++ String "[" (y ++ "]")).
  unfold strmap at 1. cbn [strmap_fuel].
  rewrite (tokens_suffixed x y Hx Hxk Hy). cbn [bindF segments].
  destruct Hx as (Hx & Hxo & _ & _ & Hxn). destruct Hy as (Hy & Hyo & _ & _ & Hyn).
  unfold segment.
  destruct (first_match_suffixed x y Hx Hxo Hxn Hy Hyo Hyn)
    as (m & -> & E0 & E2 & E3).
  rewrite E0, E2, E3. change (nonempty EmptyString) with false. cbv iota.
  rewrite (nonempty_true x Hx).
  rewrite (strmap_fuel_enough func _ y)
    by (rewrite !length_append; simpl; rewrite length_append; lia).
  destruct (strseq func x) as [a|e]; cbn [bindF]; [|reflexivity].
  destruct (strmap func y) as [[b|e]|]; reflexivity.
Qed.

(** X9: the form [x[y]], for a bracket-free [x] without comma and a
    bracket-free [y] that may hold commas, is one segment of the second
    shape: [strmap] returns the single pair of [strseq(func, x)] and the
    list [strmap(func, y)], the commas of [y] going to the inner call;
    [x] is cast before [y] is parsed. *)
Theorem strmap_suffixed func x y :
  bracket_free x -> Str.contains "," x = false -> bracket_free y ->
  strmap func (x ++ "[" ++ y ++ "]") =
  (a <-? Some (strseq func x) ;;
   b <-? strmap func y ;;
   Some (Ok [VTuple [a; VList b]])).
Proof. exact (strmap_suffixed_eq func x y). Qed.

Lemma strmap_suffixed_witness :
  strmap PyInt.int ("1-10" ++ "[" ++ "2,3" ++ "]") =
  Some (Ok [VTuple [VTuple [VInt 1; VInt 10]; VList [VInt 2; VInt 3]]]).
Proof.
  rewrite (strmap_suffixed PyInt.int "1-10" "2,3").
  - reflexivity.
  - repeat split; discriminate.
  - reflexivity.
  - repeat split; discriminate.
Defined.

(** X10: the form [[x][y]], for bracket-free [x] and [y], is one segment of
    the first shape: [strmap] pairs every element of [strmap(func, x)] with
    the whole list [strmap(func, y)]; [y] is parsed first, so an exception
    from [y] is the one raised. *)
Theorem strmap_double_bracket func x y :
  bracket_free x -> bracket_free y ->
  strmap func ("[" ++ x ++ "][" ++ y ++ "]") =
  (rhs <-? strmap func y ;;
   els <-? strmap func x ;;
   Some (Ok (map (fun el => VTuple [el; VList rhs]) els))).
Proof.
  intros Hx Hy.
  change ("[" ++ x ++ "][" ++ y ++ "]")
    with (String "[" (x ++ String "]" (String "[" (y ++ "]")))).
  unfold strmap at 1. cbn [strmap_fuel].
  rewrite (tokens_double x y Hx Hy). cbn [bindF segments].
  destruct Hx as (Hx & _ & _ & _ & Hxn). destruct Hy as (Hy & Hyo & _ & _ & Hyn).
  unfold segment.
  destruct (first_match_double x y Hx Hxn Hy Hyo Hyn) as (m & -> & E0 & E1).
  rewrite E0, E1. rewrite (nonempty_true x Hx).
  rewrite (strmap_fuel_enough func _ y)
    by (cbn [String.length]; rewrite !length_append; simpl;
        rewrite length_append; lia).
  rewrite (strmap_fuel_enough func _ x)
    by (cbn [String.length]; rewrite !length_append; simpl; lia).
  destruct (strmap func y) as [[rhs|e]|]; cbn [bindF]; try reflexivity.
  destruct (strmap func x) as [[els|e]|]; reflexivity.
Qed.

Lemma strmap_double_bracket_witness :
  strmap PyInt.int ("[" ++ "1,4-5" ++ "][" ++ "2,3" ++ "]") =
  Some (Ok [VTuple [VInt 1; VList [VInt 2; VInt 3]];
            VTuple [VTuple [VInt 4; VInt 5]; VList [VInt 2; VInt 3]]]).
Proof.
  rewrite (strmap_double_bracket PyInt.int "1,4-5" "2,3").
  - reflexivity.
  - repeat split; discriminate.
  - repeat split; discriminate.
Defined.


(** ** Ranges of integers, end to end *)

Section IntegerRanges.
Import Str StrFacts.









End IntegerRanges.







(** ** More on [erange] *)

Section MoreRanges.

Lemma range_len_unit a b :
  range_len a (b + 1) 1 = if a <=? b then b - a + 1 else 0.
Proof.
  unfold range_len. change (0 <? 1) with true. cbv iota.
  destruct (Z.ltb_spec a (b + 1)); destruct (Z.leb_spec a b); try lia.
  rewrite Z.div_1_r. lia.
Qed.

Lemma range_list_length start stop step :
  List.length (range_list start stop step) = Z.to_nat (range_len start stop step).
Proof. unfold range_list. now rewrite length_map, length_seq. Qed.

Lemma range_list_nth start stop step k :
  (k < Z.to_nat (range_len start stop step))%nat ->
  nth k (range_list start stop step) 0 = start + Z.of_nat k * step.
Proof.
  intro Hk. unfold range_list.
  set (f := fun i : nat => start + Z.of_nat i * step).
  rewrite (nth_indep _ 0 (f O)) by (now rewrite length_map, length_seq).
  rewrite (map_nth f), seq_nth by exact Hk. reflexivity.
Qed.

(** What [range] yields for a negative step: the values [start + k*step]
    above [stop]. *)
Lemma in_range_list_neg start stop step z :
  step < 0 ->
  In z (range_list start stop step) <->
  stop < z <= start /\ (step | z - start).
Proof.
  intro Hstep. unfold range_list, range_len.
  rewrite in_map_iff.
  destruct (Z.ltb_spec 0 step) as [|_]; [lia|].
  split.
  - intros (k & <- & Hk). apply in_seq in Hk.
    destruct (Z.ltb_spec stop start) as [Hlt|Hge]; [|simpl in Hk; lia].
    assert (Hq : 0 <= (start - stop - 1) / (- step))
      by (apply Z.div_pos; lia).
    assert (Hk' : Z.of_nat k <= (start - stop - 1) / (- step)) by lia.
    assert (Hm := Z.mul_div_le (start - stop - 1) (- step) ltac:(lia)).
    split; [nia|].
    exists (Z.of_nat k). ring.
  - intros ((Hlo & Hhi) & (m & Hm)).
    destruct (Z.ltb_spec stop start) as [Hlt|Hge]; [|lia].
    assert (Hm0 : 0 <= m) by nia.
    assert (Hmq : m <= (start - stop - 1) / (- step))
      by (apply Z.div_le_lower_bound; nia).
    exists (Z.to_nat m). split; [rewrite Z2Nat.id by lia; lia|].
    apply in_seq. lia.
Qed.

End MoreRanges.

(** X14: with a negative step [erange(a, step, b)] counts down from [a] and
    stops above [b + 1]: it yields exactly the values [a + k*step] that are
    greater than [b + 1], so it never yields [b], even when the step lands
    on it. *)
Theorem erange_negative_step a step b :
  step < 0 ->
  exists l,
    erange [VInt a; VInt step; VInt b] = Ok (map VInt l) /\
    (forall z, In z l <-> b + 1 < z <= a /\ (step | z - a)) /\
    ~ In b l.
Proof.
  intro Hstep. exists (range_list a (b + 1) step).
  split; [apply erange_triple; lia|].
  split; [intro z; now apply in_range_list_neg|].
  rewrite in_range_list_neg by exact Hstep. lia.
Qed.

Lemma erange_negative_step_witness :
  exists l,
    erange [VInt 7; VInt (-2); VInt 1] = Ok (map VInt l) /\
    (forall z, In z l <-> 1 + 1 < z <= 7 /\ (-2 | z - 7)) /\
    ~ In 1 l.
Proof.
  apply (erange_negative_step 7 (-2) 1). reflexivity.
Defined.

(** X15: [erange(a, b)] counts up by one from [a]: it has [b - a + 1]
    elements when [a <= b] and none otherwise, and its element of index [k]
    is [a + k], so the values come in increasing order, none twice. *)
Theorem erange_pair_elements a b :
  exists l,
    erange [VInt a; VInt b] = Ok (map VInt l) /\
    List.length l = Z.to_nat (b - a + 1) /\
    (forall k, (k < List.length l)%nat -> nth k l 0 = a + Z.of_nat k).
Proof.
  exists (range_list a (b + 1) 1). split; [apply erange_pair|].
  assert (Hlen : List.length (range_list a (b + 1) 1) = Z.to_nat (b - a + 1)).
  { rewrite range_list_length, range_len_unit.
    destruct (Z.leb_spec a b); [reflexivity | lia]. }
  split; [exact Hlen|].
  intros k Hk. rewrite range_list_nth; [lia|].
  now rewrite <- range_list_length.
Qed.

(** ** [lstranges] on lists of scalars *)

Section FlatLists.

Variable cast : list value -> outcome (list value).

Lemma lstranges_leaf v : is_leaf v = true -> lstranges cast v = Ok v.
Proof. destruct v; try reflexivity; discriminate. Qed.

Lemma extend_each_leaves vs :
  forallb is_leaf vs = true ->
  forall l, extend_each cast vs l = Ok (VList (l ++ vs)%list).
Proof.
  induction vs as [|v vs IH]; intros H l; simpl.
  - now rewrite app_nil_r.
  - simpl in H. apply andb_prop in H as [Hv Hvs].
    rewrite (lstranges_leaf v Hv). cbn [bind].
    replace (match v with
             | VList xs => extend_each cast vs (l ++ xs)%list
             | _ => extend_each cast vs (l ++ [v])%list
             end) with (extend_each cast vs (l ++ [v])%list)
      by (destruct v; try reflexivity; discriminate).
    rewrite (IH Hvs). now rewrite <- app_assoc.
Qed.

Lemma extend_each_lists vss :
  Forall (fun vs => forallb is_leaf vs = true) vss ->
  forall l, extend_each cast (map VList vss) l = Ok (VList (l ++ List.concat vss)%list).
Proof.
  induction 1 as [|vs vss Hvs Hall IH]; intro l; simpl.
  - now rewrite app_nil_r.
  - change ((fix each (lts : list value) (l0 : list value) : outcome value :=
               match lts with
               | [] => Ok (VList l0)
               | lt :: lts' =>
                   ls <- lstranges cast lt ;;
                   match ls with
                   | VList xs => each lts' (l0 ++ xs)%list
                   | _ => each lts' (l0 ++ [ls])%list
                   end
               end) vs []) with (extend_each cast vs []).
    rewrite (extend_each_leaves vs Hvs). cbn [bind app].
    rewrite IH. now rewrite <- app_assoc.
Qed.

End FlatLists.

(** X16: for every range constructor, [lstranges] leaves a list of scalars
    as it is, and flattens a list of lists of scalars by one level, in
    order; the constructor is not called. *)
Theorem lstranges_flat cast :
  (forall vs,
      forallb is_leaf vs = true ->
      lstranges cast (VList vs) = Ok (VList vs)) /\
  (forall vss,
      Forall (fun vs => forallb is_leaf vs = true) vss ->
      lstranges cast (VList (map VList vss)) = Ok (VList (List.concat vss))).
Proof.
  split.
  - intros vs H. rewrite lstranges_list. now rewrite extend_each_leaves.
  - intros vss H. rewrite lstranges_list. now rewrite extend_each_lists.
Qed.

Lemma lstranges_flat_witness :
  lstranges erange (VList [VInt 4; VStr "a"; VNone]) =
    Ok (VList [VInt 4; VStr "a"; VNone]) /\
  lstranges erange (VList (map VList [[VInt 1; VInt 2]; []; [VInt 3]])) =
    Ok (VList (List.concat [[VInt 1; VInt 2]; []; [VInt 3]])).
Proof.
  split.
  - apply (proj1 (lstranges_flat erange)). reflexivity.
  - apply (proj2 (lstranges_flat erange)). repeat constructor.
Defined.

(** ** Texts with more separators than a range has parts *)

Section ManyParts.
Import Str StrFacts.





End ManyParts.



Section FourParts.
Import Str StrFacts.


End FourParts.



(** ** [fileindex] on integer indices *)

Section FileIndexIntegers.
Import Str StrFacts.




End FileIndexIntegers.





(** ** Inputs without brackets *)

Section WithoutBrackets.
Import Str StrFacts.

Lemma segment_plain func self t :
  t <> EmptyString -> contains "[" t = false -> contains newline t = false ->
  segment func self t = (a <-? Some (strseq func t) ;; Some (Ok [a])).
Proof.
  intros Hne Hbr Hnl. unfold segment.
  rewrite (first_match_plain t Hne Hbr Hnl).
  change (set_group 4 t no_groups 0%nat) with EmptyString.
  change (set_group 4 t no_groups 2%nat) with EmptyString.
  change (set_group 4 t no_groups 4%nat) with t.
  change (nonempty EmptyString) with false. cbv iota.
  now rewrite (nonempty_true t Hne).
Qed.

Lemma segments_plain func self commas :
  Forall (fun t => t <> EmptyString /\ contains "[" t = false /\
                   contains newline t = false) commas ->
  forall l,
    segments func self commas l =
    (vs <-? Some (mapM (strseq func) commas) ;; Some (Ok (l ++ vs)%list)).
Proof.
  induction 1 as [|t commas (Hne & Hbr & Hnl) Hall IH]; intro l; simpl.
  - now rewrite app_nil_r.
  - rewrite (segment_plain func self t Hne Hbr Hnl).
    destruct (strseq func t) as [a|e]; simpl; [|reflexivity].
    rewrite IH. destruct (mapM (strseq func) commas) as [vs|e]; simpl; [|reflexivity].
    now rewrite <- app_assoc.
Qed.

End WithoutBrackets.

(** X21: on an input without brackets, spaces or newlines whose
    comma-separated parts are all non-empty, [strmap] is [strseq] applied to
    every part, in order: one element per part, and the first exception a
    cast raises. *)
Theorem strmap_without_brackets func s :
  Str.contains "[" s = false -> Str.contains "]" s = false ->
  Str.contains " " s = false -> Str.contains newline s = false ->
  Forall (fun t => t <> EmptyString) (Str.split "," s) ->
  strmap func s = Some (mapM (strseq func) (Str.split "," s)).
Proof.
  intros Ho Hc Hs Hn Hparts.
  unfold strmap. cbn [strmap_fuel].
  assert (Hrm : Str.remove " " s = s) by now apply remove_no_char.
  assert (Htok : tokens s = Ok (Str.split "," s)).
  { rewrite <- Hrm at 2. apply tokens_all_balanced. rewrite Hrm.
    pose proof (contains_split "[" "," s Ho) as H1.
    pose proof (contains_split "]" "," s Hc) as H2.
    rewrite Forall_forall in *. intros t Ht. unfold balanced.
    now rewrite (StrFacts.count_no_sep _ _ (H1 t Ht)),
                (StrFacts.count_no_sep _ _ (H2 t Ht)). }
  rewrite Htok. cbn [bindF].
  rewrite segments_plain.
  - destruct (mapM (strseq func) (Str.split "," s)); reflexivity.
  - pose proof (contains_split "[" "," s Ho) as H1.
    pose proof (contains_split newline "," s Hn) as H2.
    rewrite Forall_forall in *. intros t Ht.
    repeat split; [now apply Hparts | now apply H1 | now apply H2].
Qed.

Lemma strmap_without_brackets_witness :
  strmap PyInt.int "1,3-5,2:2:8" =
  Some (mapM (strseq PyInt.int) (Str.split "," "1,3-5,2:2:8")).
Proof.
  apply (strmap_without_brackets PyInt.int "1,3-5,2:2:8"); try reflexivity.
  repeat constructor; discriminate.
Defined.

Section EmptyPart.
Import Str StrFacts.

Lemma segments_plain_prefix func self pre rest :
  Forall (fun t => t <> EmptyString /\ contains "[" t = false /\
                   contains newline t = false) pre ->
  forall l,
    segments func self (pre ++ rest)%list l =
    (vs <-? Some (mapM (strseq func) pre) ;; segments func self rest (l ++ vs)%list).
Proof.
  induction 1 as [|t pre (Hne & Hbr & Hnl) Hall IH]; intro l; simpl.
  - now rewrite app_nil_r.
  - rewrite (segment_plain func self t Hne Hbr Hnl).
    destruct (strseq func t) as [a|e]; simpl; [|reflexivity].
    rewrite IH. destruct (mapM (strseq func) pre) as [vs|e]; simpl; [|reflexivity].
    now rewrite <- app_assoc.
Qed.

End EmptyPart.

(** X22: an empty part between commas (a doubled, leading or trailing comma)
    in an input without brackets matches nothing of the segment pattern:
    once the parts before it are cast, [strmap] raises [IndexError], and
    returns no partial list. *)
Theorem strmap_empty_part_raises func s pre post vs :
  Str.contains "[" s = false -> Str.contains "]" s = false ->
  Str.contains " " s = false -> Str.contains newline s = false ->
  Str.split "," s = (pre ++ EmptyString :: post)%list ->
  Forall (fun t => t <> EmptyString) pre ->
  mapM (strseq func) pre = Ok vs ->
  strmap func s = Some (Raise IndexError).
Proof.
  intros Ho Hc Hs Hn Hsplit Hpre Hcast.
  unfold strmap. cbn [strmap_fuel].
  assert (Hrm : Str.remove " " s = s) by now apply remove_no_char.
  assert (Htok : tokens s = Ok (Str.split "," s)).
  { rewrite <- Hrm at 2. apply tokens_all_balanced. rewrite Hrm.
    pose proof (contains_split "[" "," s Ho) as H1.
    pose proof (contains_split "]" "," s Hc) as H2.
    rewrite Forall_forall in *. intros t Ht. unfold balanced.
    now rewrite (StrFacts.count_no_sep _ _ (H1 t Ht)),
                (StrFacts.count_no_sep _ _ (H2 t Ht)). }
  rewrite Htok, Hsplit. cbn [bindF].
  rewrite segments_plain_prefix.
  - rewrite Hcast. reflexivity.
  - pose proof (contains_split "[" "," s Ho) as H1.
    pose proof (contains_split newline "," s Hn) as H2.
    rewrite Hsplit in H1, H2.
    apply Forall_app in H1 as [H1 _]. apply Forall_app in H2 as [H2 _].
    rewrite Forall_forall in *. intros t Ht.
    repeat split; [now apply Hpre | now apply H1 | now apply H2].
Qed.

Lemma strmap_empty_part_raises_witness :
  strmap PyInt.int "1,,2" = Some (Raise IndexError).
Proof.
  apply (strmap_empty_part_raises PyInt.int "1,,2" ["1"] ["2"] [VInt 1]);
    try reflexivity.
  repeat constructor; discriminate.
Defined.
